(** * DictionaryApp (MyApp/app/index.tsx): a shallow embedding

    The component keeps four state slots ([word], [definition], [loading],
    [error]), one asynchronous handler ([fetchDefinition]) and a render
    function.  The embedding follows the source:

    - JavaScript strings are sequences of UTF-16 code units;
    - the erased TypeScript interfaces become records, the union
      [ApiResponse | ApiError] a sum, the casts [data as ...] nothing:
      a parsed body has one of the two declared shapes, whatever the
      status, and a property the code guards against may be missing;
    - the handler is a small program of state updates and awaits, run
      either on its own against the replies of the network or inside an
      event loop where other handlers interleave at the awaits;
    - the JSX tree is a tree of elements, text and numbers.

    The repository holds two copies of the file; they differ in the title
    text, in colours and in comments only.  The first copy is modelled. *)

From Stdlib Require Import NArith List String Ascii DecimalString DecimalNat Lia.
From stdpp Require Import base list strings relations.

Local Open Scope N_scope.

(** ** JavaScript strings *)

Definition JsString := list N.

(** A source literal (ASCII) as code units. *)
Definition lit (s : string) : JsString :=
  N_of_ascii <$> list_ascii_of_string s.

(** ECMAScript WhiteSpace: TAB, VT, FF, ZWNBSP and the Zs category. *)
Definition is_white_space (c : N) : bool :=
  (c =? 0x0009) || (c =? 0x000B) || (c =? 0x000C) || (c =? 0xFEFF)
  || (c =? 0x0020) || (c =? 0x00A0) || (c =? 0x1680)
  || ((0x2000 <=? c) && (c <=? 0x200A))
  || (c =? 0x202F) || (c =? 0x205F) || (c =? 0x3000).

(** ECMAScript LineTerminator: LF, CR, LS, PS. *)
Definition is_line_terminator (c : N) : bool :=
  (c =? 0x000A) || (c =? 0x000D) || (c =? 0x2028) || (c =? 0x2029).

Definition is_trimmed (c : N) : bool :=
  is_white_space c || is_line_terminator c.

Fixpoint trimStart (s : JsString) : JsString :=
  match s with
  | [] => []
  | c :: rest => if is_trimmed c then trimStart rest else s
  end.

Definition trimEnd (s : JsString) : JsString :=
  reverse (trimStart (reverse s)).

(** [String.prototype.trim] *)
Definition trim (s : JsString) : JsString := trimEnd (trimStart s).

(** ToBoolean on a string: only the empty string is falsy. *)
Definition truthy (s : JsString) : bool :=
  match s with [] => false | _ :: _ => true end.

(** [x || y] where [x] is a string that may be undefined. *)
Definition js_or (x : option JsString) (y : JsString) : JsString :=
  match x with
  | Some s => if truthy s then s else y
  | None => y
  end.

(** The double quote character, as text. *)
Definition quote : JsString := [0x22].

(** Number to string, as a template literal or a text child prints it. *)
Definition decimal (n : nat) : JsString :=
  lit (NilEmpty.string_of_uint (Nat.to_uint n)).

(** ** The interfaces *)

Module Api.

(** [interface Definition { definition: string; example?: string }] *)
Record Definition_ := {
  definition : JsString;
  example : option JsString
}.

(** [interface Meaning] *)
Record Meaning := {
  partOfSpeech : JsString;
  definitions : list Definition_
}.

(** [interface DictionaryEntry] *)
Record DictionaryEntry := {
  word : JsString;
  meanings : list Meaning
}.

(** [type ApiResponse = DictionaryEntry[]] *)
Definition ApiResponse := list DictionaryEntry.

(** [interface ApiError].  The interface is erased at run time and the
    body comes from the network: a property can be missing, which is what
    the source's [|| "Could not find a definition."] provides for. *)
Record ApiError := {
  title : option JsString;
  message : option JsString;
  resolution : option JsString
}.

(** [const data: ApiResponse | ApiError]: a parsed body of one of the two
    declared shapes, an array of entries or an object whose [title], if it
    is there, is a string.  [response.json()] can resolve to other values
    ([null], a number, an object with a title that is not a string); what
    the component does with those is not part of this development. *)
Inductive Data :=
| Entries (r : ApiResponse)
| Problem (e : ApiError).

(** [(data as ApiError).title]: an array has no such property. *)
Definition title_of (data : Data) : option JsString :=
  match data with
  | Problem e => title e
  | Entries _ => None
  end.

(** [definition[0]]: [undefined] past the end of an array, and on an
    object of the [ApiError] shape. *)
Definition first (data : Data) : option DictionaryEntry :=
  match data with
  | Entries r => r !! 0%nat
  | Problem _ => None
  end.

End Api.

(** ** Component state: the four [useState] slots *)

Record State := {
  word : JsString;
  definition : option Api.Data;
  loading : bool;
  error : JsString
}.

(** The values given to [useState] on mount. *)
Definition initial : State :=
  {| word := []; definition := None; loading := false; error := [] |}.

Inductive Update :=
| setWord (s : JsString)
| setDefinition (d : option Api.Data)
| setLoading (b : bool)
| setError (s : JsString).

Definition update (u : Update) (st : State) : State :=
  match u with
  | setWord s =>
      {| word := s; definition := definition st;
         loading := loading st; error := error st |}
  | setDefinition d =>
      {| word := word st; definition := d;
         loading := loading st; error := error st |}
  | setLoading b =>
      {| word := word st; definition := definition st;
         loading := b; error := error st |}
  | setError s =>
      {| word := word st; definition := definition st;
         loading := loading st; error := s |}
  end.

(** ** The network *)

Record Response := { status : N }.

(** [response.ok]: the status is in the range 200-299. *)
Definition ok (r : Response) : bool :=
  (200 <=? status r) && (status r <=? 299).

(** ** Handlers

    A handler calls setters and awaits promises.  [None] given to a
    continuation is the rejection of the awaited promise. *)

Inductive Task :=
| Return
| Call (u : Update) (k : Task)
| AwaitFetch (url : JsString) (k : option Response -> Task)
| AwaitJson (r : Response) (k : option Api.Data -> Task).

Definition endpoint : JsString :=
  lit "https://api.dictionaryapi.dev/api/v2/entries/en/".

(** The [finally] block. *)
Definition finally_block : Task := Call (setLoading false) Return.

(** The [catch] block, followed by [finally]. *)
Definition catch_block : Task :=
  Call (setError (lit "An error occurred. Please check your network connection."))
       finally_block.

(** [fetchDefinition], closed over the [word] of the render it belongs to. *)
Definition fetchDefinition (word : JsString) : Task :=
  if negb (truthy (trim word)) then
    Call (setError (lit "Please enter a word.")) Return
  else
    Call (setLoading true)
   (Call (setDefinition None)
   (Call (setError [])
   (AwaitFetch (endpoint ++ word) (fun fetched =>
      match fetched with
      | None => catch_block
      | Some response =>
          AwaitJson response (fun parsed =>
            match parsed with
            | None => catch_block
            | Some data =>
                if ok response then
                  Call (setDefinition (Some data)) finally_block
                else
                  Call (setError
                          (js_or (Api.title_of data)
                                 (lit "Could not find a definition.")))
                       finally_block
            end)
      end)))).

(** ** One invocation on its own

    [World] is what the network answers to the one request of an
    invocation: the settlement of [fetch] and of [response.json()]. *)

Record World := {
  fetch_reply : option Response;
  json_reply : option Api.Data
}.

Inductive Event :=
| Updated (u : Update)
| Requested (url : JsString).

(** The events of a task in order, each with the state after it. *)
Fixpoint run (w : World) (t : Task) (st : State) : list (Event * State) :=
  match t with
  | Return => []
  | Call u k => let st' := update u st in (Updated u, st') :: run w k st'
  | AwaitFetch url k => (Requested url, st) :: run w (k (fetch_reply w)) st
  | AwaitJson _ k => run w (k (json_reply w)) st
  end.

(** The state a trace ends in. *)
Definition final (st : State) (tr : list (Event * State)) : State :=
  match last tr with
  | Some (_, st') => st'
  | None => st
  end.

(** The URLs requested along a trace. *)
Definition requests (tr : list (Event * State)) : list JsString :=
  omap (fun e => match e.1 with Requested url => Some url | Updated _ => None end) tr.

(** The states passed through. *)
Definition states (tr : list (Event * State)) : list State := snd <$> tr.

(** The setter calls made. *)
Definition updates (tr : list (Event * State)) : list Update :=
  omap (fun e => match e.1 with Updated u => Some u | Requested _ => None end) tr.

(** A submission in state [st], run to its end with nothing in between. *)
Definition submission (w : World) (st : State) : list (Event * State) :=
  run w (fetchDefinition (word st)) st.

Definition submitted (w : World) (st : State) : State :=
  final st (submission w st).

(** ** The event loop

    Between an await and its settlement the loop runs other handlers:
    key strokes, further submissions, settlements of other requests. *)

Inductive Suspended :=
| Fetching (url : JsString) (k : option Response -> Task)
| Parsing (r : Response) (k : option Api.Data -> Task).

Record System := {
  ui : State;
  inflight : list Suspended;
  network : list JsString
}.

(** The component right after mount: nothing in flight, nothing sent. *)
Definition mounted : System :=
  {| ui := initial; inflight := []; network := [] |}.

(** Runs a task up to its next await. *)
Fixpoint resume (t : Task) (s : System) : System :=
  match t with
  | Return => s
  | Call u k =>
      resume k {| ui := update u (ui s); inflight := inflight s;
                  network := network s |}
  | AwaitFetch url k =>
      {| ui := ui s; inflight := inflight s ++ [Fetching url k];
         network := network s ++ [url] |}
  | AwaitJson r k =>
      {| ui := ui s; inflight := inflight s ++ [Parsing r k];
         network := network s |}
  end.

Definition forget (i : nat) (s : System) : System :=
  {| ui := ui s; inflight := delete i (inflight s); network := network s |}.

Inductive step : System -> System -> Prop :=
| onChangeText s text :
    step s {| ui := update (setWord text) (ui s); inflight := inflight s;
              network := network s |}
| onSubmitEditing s :
    step s (resume (fetchDefinition (word (ui s))) s)
| onPress s :
    (* [disabled={loading}] *)
    loading (ui s) = false ->
    step s (resume (fetchDefinition (word (ui s))) s)
| fetch_settles s i url k reply :
    inflight s !! i = Some (Fetching url k) ->
    step s (resume (k reply) (forget i s))
| json_settles s i r k reply :
    inflight s !! i = Some (Parsing r k) ->
    step s (resume (k reply) (forget i s)).

Definition reachable (s : System) : Prop := rtc step mounted s.

(** *** What stays true in the loop *)

(** A task that makes one more setter call and goes through [finally]. *)
Definition ends_in_finally (t : Task) : Prop :=
  exists u, t = Call u finally_block.

(** A suspended handler whose every settlement leads to [finally], at once
    or after the parse of the body. *)
Definition settles (x : Suspended) : Prop :=
  match x with
  | Fetching _ k =>
      forall reply,
        ends_in_finally (k reply)
        \/ exists r k', k reply = AwaitJson r k'
                        /\ forall parsed, ends_in_finally (k' parsed)
  | Parsing _ k => forall parsed, ends_in_finally (k parsed)
  end.

(** The invariant of the event loop: whatever is in flight settles, and
    the spinner is on only while something is in flight. *)
Definition steady (s : System) : Prop :=
  Forall settles (inflight s)
  /\ (inflight s = [] -> loading (ui s) = false).

(** ** Rendering *)

(** What evaluating an expression gives: a value, or a thrown
    [TypeError]. *)
Inductive Result (A : Type) :=
| Value (a : A)
| TypeError.
Arguments Value {A} a.
Arguments TypeError {A}.

#[global] Instance Result_bind : MBind Result :=
  fun A B f r =>
    match r with
    | Value a => f a
    | TypeError => TypeError
    end.

(** [e.f]: reading a property of [undefined] throws. *)
Definition member {A B} (f : A -> B) (e : option A) : Result B :=
  match e with
  | Some a => Value (f a)
  | None => TypeError
  end.

(** [e?.f]: [undefined] when [e] is. *)
Definition optional_member {A B} (f : A -> B) (e : option A) : Result (option B) :=
  Value (f <$> e).

Module styles.
Inductive Style :=
| container | innerContainer | title | input | button | buttonText
| loader | resultsContainer | definitionContainer | partOfSpeech
| definitionBlock | definitionText | exampleText | errorText.

#[global] Instance Style_eq_dec : EqDecision Style.
Proof. solve_decision. Defined.
End styles.

Inductive Component :=
| SafeAreaView
| View
| Text
| TextInput (placeholder value : JsString)
| TouchableOpacity (disabled : bool)
| ActivityIndicator
| FlatList.

(** A rendered node.  [Blank] is a child React draws nothing for:
    [false], [null], [undefined] or the empty string left by [&&]. *)
#[warnings="-register-all"]
Inductive Node :=
| Blank
| Chars (s : JsString)
| Number (n : nat)
| Elem (c : Component) (style : styles.Style) (key : option JsString)
       (children : list Node).

(** [renderDefinition]: one row of the list. *)
Definition renderDefinition (item : Api.Meaning) : Node :=
  Elem View styles.definitionContainer None
    (Elem Text styles.partOfSpeech None [Chars (Api.partOfSpeech item)]
     :: imap (fun index def =>
          Elem View styles.definitionBlock (Some (decimal index))
            [ Elem Text styles.definitionText None
                [Number (index + 1); Chars (lit ". ");
                 Chars (Api.definition def)];
              match Api.example def with
              | Some example =>
                  if truthy example then
                    Elem Text styles.exampleText None
                      [Chars (lit "Example: " ++ quote); Chars example;
                       Chars quote]
                  else Blank
              | None => Blank
              end ])
         (Api.definitions item)).

Definition keyExtractor (item : Api.Meaning) (index : nat) : JsString :=
  Api.partOfSpeech item ++ lit "-" ++ decimal index.

Definition keyed (key : JsString) (n : Node) : Node :=
  match n with
  | Elem c s _ children => Elem c s (Some key) children
  | _ => n
  end.

(** [<FlatList data renderItem keyExtractor style>]: a row for every item
    of [data], none when [data] is [undefined]. *)
Definition flatList (data : option (list Api.Meaning)) : Node :=
  Elem FlatList styles.resultsContainer None
    (imap (fun index item => keyed (keyExtractor item index) (renderDefinition item))
          (default [] data)).

(** [{definition && (<FlatList data={definition[0]?.meanings} ... />)}] *)
Definition results (st : State) : Result Node :=
  match definition st with
  | Some definition =>
      data ← optional_member Api.meanings (Api.first definition);
      Value (flatList data)
  | None => Value Blank
  end.

(** The tree the component returns. *)
Definition render (st : State) : Result Node :=
  results ← results st;
  Value
    (Elem SafeAreaView styles.container None
      [ Elem View styles.innerContainer None
          [ Elem Text styles.title None [Chars (lit "Dictionary")];
            Elem (TextInput (lit "Enter a word...") (word st)) styles.input None [];
            Elem (TouchableOpacity (loading st)) styles.button None
              [Elem Text styles.buttonText None [Chars (lit "Search")]];
            if loading st then Elem ActivityIndicator styles.loader None []
            else Blank;
            if truthy (error st) then
              Elem Text styles.errorText None [Chars (error st)]
            else Blank;
            results ] ]).

(** ** Reading a tree *)

(** The characters a node displays. *)
Fixpoint text (n : Node) : JsString :=
  match n with
  | Blank => []
  | Chars s => s
  | Number n => decimal n
  | Elem _ _ _ children =>
      (fix texts (l : list Node) : JsString :=
         match l with
         | [] => []
         | c :: rest => text c ++ texts rest
         end) children
  end.

(** Every element of a tree, parents before children, in document order. *)
Fixpoint elements (n : Node) : list Node :=
  match n with
  | Elem _ _ _ children =>
      n :: (fix all (l : list Node) : list Node :=
              match l with
              | [] => []
              | c :: rest => elements c ++ all rest
              end) children
  | _ => []
  end.

Definition is_spinner (n : Node) : bool :=
  match n with Elem ActivityIndicator _ _ _ => true | _ => false end.

Definition is_list (n : Node) : bool :=
  match n with Elem FlatList _ _ _ => true | _ => false end.

Definition is_error_line (n : Node) : bool :=
  match n with Elem Text styles.errorText _ _ => true | _ => false end.

Definition shows (p : Node -> bool) (tree : Node) : bool :=
  existsb p (elements tree).

(** The lines of text of a tree: each [Text] element with its style. *)
Definition line (n : Node) : option (styles.Style * JsString) :=
  match n with
  | Elem Text s _ _ => Some (s, text n)
  | _ => None
  end.

Definition lines (tree : Node) : list (styles.Style * JsString) :=
  omap line (elements tree).

(** The result lists of a tree. *)
Definition lists (tree : Node) : list Node :=
  filter (fun n => is_list n = true) (elements tree).

(** The lines inside the result list. *)
Definition result_lines (tree : Node) : list (styles.Style * JsString) :=
  flat_map lines (lists tree).

(** ** The result list, as the specification words it

    Section 4.3: for the first entry only, each meaning is a section headed
    by its part of speech; its definitions are numbered from 1, each with
    an example line when it carries an example. *)

(** A definition carries an example when its [example] is a string with
    something in it. *)
Definition carries_example (def : Api.Definition_) : option JsString :=
  match Api.example def with
  | Some example => if truthy example then Some example else None
  | None => None
  end.

Definition numbered (index : nat) (def : Api.Definition_)
  : list (styles.Style * JsString) :=
  (styles.definitionText, decimal (index + 1) ++ lit ". " ++ Api.definition def)
  :: match carries_example def with
     | Some example =>
         [(styles.exampleText, lit "Example: " ++ quote ++ example ++ quote)]
     | None => []
     end.

Definition section_of (item : Api.Meaning) : list (styles.Style * JsString) :=
  (styles.partOfSpeech, Api.partOfSpeech item)
  :: concat (imap numbered (Api.definitions item)).

Definition listing (entries : Api.ApiResponse) : list (styles.Style * JsString) :=
  match entries with
  | entry :: _ => flat_map section_of (Api.meanings entry)
  | [] => []
  end.

(** ** Reading the fields back from a rendered list *)

(** A definition line without its numbering. *)
Definition unnumbered (index : nat) (s : JsString) : JsString :=
  drop (length (decimal (index + 1)) + 2) s.

(** An example line without [Example: ] and the quotes. *)
Definition unquoted (s : JsString) : JsString :=
  take (length s - 11) (drop 10 s).

Definition extract_block (index : nat) (block : Node)
  : option (JsString * option JsString) :=
  match block with
  | Elem View styles.definitionBlock _ (numbered_line :: rest) =>
      Some (unnumbered index (text numbered_line),
            match rest with
            | (Elem Text styles.exampleText _ _ as example_line) :: _ =>
                Some (unquoted (text example_line))
            | _ => None
            end)
  | _ => None
  end.

Definition extract_row (row : Node)
  : option (JsString * list (JsString * option JsString)) :=
  match row with
  | Elem View styles.definitionContainer _ (header :: blocks) =>
      Some (text header, omap id (imap extract_block blocks))
  | _ => None
  end.

(** Part of speech, definitions and examples of every row of the list. *)
Definition extract (tree : Node)
  : list (JsString * list (JsString * option JsString)) :=
  flat_map (fun l => match l with
                     | Elem _ _ _ rows => omap extract_row rows
                     | _ => []
                     end)
           (lists tree).

(** The same fields of a response: of every entry, as they came, and of
    the first entry as the list can show them. *)
Definition fields_of_meaning (item : Api.Meaning)
  : JsString * list (JsString * option JsString) :=
  (Api.partOfSpeech item,
   (fun def => (Api.definition def, Api.example def)) <$> Api.definitions item).

Definition fields (entries : Api.ApiResponse)
  : list (JsString * list (JsString * option JsString)) :=
  flat_map (fun entry => fields_of_meaning <$> Api.meanings entry) entries.

Definition shown_fields_of_meaning (item : Api.Meaning)
  : JsString * list (JsString * option JsString) :=
  (Api.partOfSpeech item,
   (fun def => (Api.definition def, carries_example def)) <$> Api.definitions item).

Definition shown_fields (entries : Api.ApiResponse)
  : list (JsString * list (JsString * option JsString)) :=
  match entries with
  | entry :: _ => shown_fields_of_meaning <$> Api.meanings entry
  | [] => []
  end.

(** The number of definition lines in the list. *)
Definition definition_count (tree : Node) : nat :=
  length (filter (fun l => l.1 = styles.definitionText) (result_lines tree)).

(** ** URL encoding, as the specification words it

    Section 4.2 has the word URL-encoded in the request.  The source has no
    encoding; this is [encodeURIComponent], for the comparison.  [None] is
    the URIError on a lone surrogate. *)

Definition is_unreserved (c : N) : bool :=
  ((0x41 <=? c) && (c <=? 0x5A)) || ((0x61 <=? c) && (c <=? 0x7A))
  || ((0x30 <=? c) && (c <=? 0x39))
  || bool_decide (c ∈ lit "-_.!~*'()").

Definition hex_digit (d : N) : N :=
  if d <? 10 then 0x30 + d else 0x41 + (d - 10).

Definition percent (byte : N) : JsString :=
  [0x25; hex_digit (byte / 16); hex_digit (byte mod 16)].

Definition utf8 (cp : N) : list N :=
  if cp <? 0x80 then [cp]
  else if cp <? 0x800 then [0xC0 + cp / 0x40; 0x80 + cp mod 0x40]
  else if cp <? 0x10000 then
    [0xE0 + cp / 0x1000; 0x80 + (cp / 0x40) mod 0x40; 0x80 + cp mod 0x40]
  else
    [0xF0 + cp / 0x40000; 0x80 + (cp / 0x1000) mod 0x40;
     0x80 + (cp / 0x40) mod 0x40; 0x80 + cp mod 0x40].

Definition is_high_surrogate (c : N) : bool := (0xD800 <=? c) && (c <=? 0xDBFF).
Definition is_low_surrogate (c : N) : bool := (0xDC00 <=? c) && (c <=? 0xDFFF).

Definition escape (cp : N) : JsString :=
  if is_unreserved cp then [cp] else flat_map percent (utf8 cp).

Fixpoint encodeURIComponent (s : JsString) : option JsString :=
  match s with
  | [] => Some []
  | c :: rest =>
      if is_low_surrogate c then None
      else if is_high_surrogate c then
        match rest with
        | d :: rest' =>
            if is_low_surrogate d then
              app (escape (0x10000 + (c - 0xD800) * 0x400 + (d - 0xDC00)))
                <$> encodeURIComponent rest'
            else None
        | [] => None
        end
      else app (escape c) <$> encodeURIComponent rest
  end.

(** ** The continuations of [fetchDefinition]

    What the handler goes on with after each of its two awaits, under a
    name. *)

(** After [await response.json()]. *)
Definition parsed_then (response : Response) (parsed : option Api.Data) : Task :=
  match parsed with
  | None => catch_block
  | Some data =>
      if ok response then
        Call (setDefinition (Some data)) finally_block
      else
        Call (setError
                (js_or (Api.title_of data)
                       (lit "Could not find a definition.")))
             finally_block
  end.

(** After [await fetch(...)]. *)
Definition fetched_then (fetched : option Response) : Task :=
  match fetched with
  | None => catch_block
  | Some response => AwaitJson response (parsed_then response)
  end.

(** ** A user who submits with the Search button only

    [onPress] is behind [disabled={loading}]; [onSubmitEditing] is not.
    These are the steps of the loop without the return key. *)

Inductive step_by_button : System -> System -> Prop :=
| button_onChangeText s text :
    step_by_button s
      {| ui := update (setWord text) (ui s); inflight := inflight s;
         network := network s |}
| button_onPress s :
    loading (ui s) = false ->
    step_by_button s (resume (fetchDefinition (word (ui s))) s)
| button_fetch_settles s i url k reply :
    inflight s !! i = Some (Fetching url k) ->
    step_by_button s (resume (k reply) (forget i s))
| button_json_settles s i r k reply :
    inflight s !! i = Some (Parsing r k) ->
    step_by_button s (resume (k reply) (forget i s)).

Definition reachable_by_button (s : System) : Prop :=
  rtc step_by_button mounted s.

(** ** Reading the controls and the keys of a tree *)

Definition key_of (n : Node) : option JsString :=
  match n with
  | Elem _ _ key _ => key
  | _ => None
  end.

Definition children_of (n : Node) : list Node :=
  match n with
  | Elem _ _ _ children => children
  | _ => []
  end.

(** The [value] of a text input. *)
Definition input_value (n : Node) : option JsString :=
  match n with
  | Elem (TextInput _ value) _ _ _ => Some value
  | _ => None
  end.

(** The [disabled] of a button. *)
Definition button_disabled (n : Node) : option bool :=
  match n with
  | Elem (TouchableOpacity disabled) _ _ _ => Some disabled
  | _ => None
  end.

(** The values of the text inputs of a tree, and the [disabled] of its
    buttons. *)
Definition input_values (tree : Node) : list JsString :=
  omap input_value (elements tree).

Definition buttons_disabled (tree : Node) : list bool :=
  omap button_disabled (elements tree).

(** ** Settlements as functions

    The settlement of the promise in flight at position [i]: [fetched] is
    what [fetch] settles with, [parsed] what [response.json()] does. *)

Definition settle (i : nat) (fetched : option Response)
    (parsed : option Api.Data) (s : System) : option System :=
  match inflight s !! i with
  | Some (Fetching _ k) => Some (resume (k fetched) (forget i s))
  | Some (Parsing _ k) => Some (resume (k parsed) (forget i s))
  | None => None
  end.

(** The request at position [i] is answered with [response], and its body,
    in flight last by then, parses to [data]. *)
Definition answered (i : nat) (response : Response) (data : Api.Data)
    (s : System) : option System :=
  s' ← settle i (Some response) None s;
  settle (length (inflight s') - 1) None (Some data) s'.

(** ** What is in flight and what was sent *)

(** A suspended handler is [fetchDefinition] at one of its awaits. *)
Definition from_fetchDefinition (x : Suspended) : Prop :=
  match x with
  | Fetching url k =>
      k = fetched_then
      /\ exists word, url = endpoint ++ word /\ trim word <> []
  | Parsing response k => k = parsed_then response
  end.

(** A URL is the endpoint followed by a query that passes validation. *)
Definition sent_for_a_word (url : JsString) : Prop :=
  exists word, url = endpoint ++ word /\ trim word <> [].

Definition wired (s : System) : Prop :=
  Forall from_fetchDefinition (inflight s)
  /\ Forall sent_for_a_word (network s).

(** * Properties *)

#[local] Arguments lit : simpl never.
#[local] Arguments endpoint : simpl never.
#[local] Arguments decimal : simpl never.
#[local] Arguments quote : simpl never.
#[local] Arguments flatList : simpl never.

(** ** Strings *)

Lemma trimStart_nil (s : JsString) :
  trimStart s = [] <-> Forall (fun c => is_trimmed c = true) s.
Proof.
  induction s as [|c s IH]; simpl.
  - split; auto.
  - destruct (is_trimmed c) eqn:E.
    + rewrite IH. split; [by constructor | by inversion 1].
    + split; [discriminate | inversion 1; congruence].
Qed.

Lemma trimStart_head (s : JsString) c r :
  trimStart s = c :: r -> is_trimmed c = false.
Proof.
  induction s as [|a s IH]; simpl; [discriminate|].
  destruct (is_trimmed a) eqn:E; [done|]. congruence.
Qed.

Lemma trim_nil (s : JsString) :
  trim s = [] <-> Forall (fun c => is_trimmed c = true) s.
Proof.
  unfold trim, trimEnd. split.
  - intros H. apply trimStart_nil.
    destruct (trimStart s) as [|c r] eqn:E; [done|]. exfalso.
    apply trimStart_head in E.
    apply (f_equal reverse) in H. rewrite reverse_involutive in H.
    change (reverse []) with (@nil N) in H.
    apply trimStart_nil in H. rewrite Forall_reverse in H.
    inversion H; congruence.
  - intros H. apply trimStart_nil in H. by rewrite H.
Qed.

Lemma truthy_true (s : JsString) : truthy s = true <-> s <> [].
Proof. destruct s; simpl; split; congruence. Qed.

Lemma truthy_false (s : JsString) : truthy s = false <-> s = [].
Proof. destruct s; simpl; split; congruence. Qed.

Lemma js_or_truthy x y : y <> [] -> js_or x y <> [].
Proof.
  intros Hy. destruct x as [s|]; simpl; [|done].
  destruct (truthy s) eqn:E; [by apply truthy_true | done].
Qed.

Lemma lit_cons a s : lit (String a s) <> [].
Proof. done. Qed.

(** ** One submission *)

Lemma requests_updated u s tr : requests ((Updated u, s) :: tr) = requests tr.
Proof. reflexivity. Qed.

Lemma requests_requested url s tr :
  requests ((Requested url, s) :: tr) = url :: requests tr.
Proof. reflexivity. Qed.

Lemma final_cons st e st' tr : final st ((e, st') :: tr) = final st' tr.
Proof.
  unfold final. destruct tr as [|[e' st''] tr]; [done|].
  rewrite last_cons_cons.
  destruct (last ((e', st'') :: tr)) as [[]|] eqn:E; [done|].
  by apply last_None in E.
Qed.

Lemma submission_rejected w st :
  trim (word st) = [] ->
  submission w st =
    [(Updated (setError (lit "Please enter a word.")),
      update (setError (lit "Please enter a word.")) st)].
Proof. unfold submission, fetchDefinition. by intros ->. Qed.

Lemma submission_accepted w st :
  trim (word st) <> [] ->
  exists tail,
    submission w st =
      (Updated (setLoading true), update (setLoading true) st)
      :: (Updated (setDefinition None),
          update (setDefinition None) (update (setLoading true) st))
      :: (Updated (setError []),
          update (setError []) (update (setDefinition None) (update (setLoading true) st)))
      :: (Requested (endpoint ++ word st),
          update (setError []) (update (setDefinition None) (update (setLoading true) st)))
      :: tail
    /\ requests tail = []
    /\ Forall (fun u => u <> setLoading true) (updates tail).
Proof.
  intros H%truthy_true. unfold submission, fetchDefinition. rewrite H. simpl.
  eexists; split; [reflexivity|].
  destruct w as [[r|] [d|]]; simpl; try destruct (ok r); simpl.
  all: split; [reflexivity|]. all: repeat constructor; discriminate.
Qed.

(** What a submission that passed validation leaves, by exit path. *)
Lemma submitted_accepted w st :
  trim (word st) <> [] ->
  submitted w st =
    match fetch_reply w, json_reply w with
    | Some response, Some data =>
        if ok response then
          {| word := word st; definition := Some data; loading := false;
             error := [] |}
        else
          {| word := word st; definition := None; loading := false;
             error := js_or (Api.title_of data)
                            (lit "Could not find a definition.") |}
    | _, _ =>
        {| word := word st; definition := None; loading := false;
           error := lit "An error occurred. Please check your network connection." |}
    end.
Proof.
  intros H%truthy_true. unfold submitted, submission, fetchDefinition.
  rewrite H. destruct w as [[r|] [d|]]; simpl; try destruct (ok r); reflexivity.
Qed.

(** ** The event loop *)

Lemma forget_last s x ui' net :
  forget (length (inflight s))
    {| ui := ui'; inflight := inflight s ++ [x]; network := net |}
  = {| ui := ui'; inflight := inflight s; network := net |}.
Proof.
  unfold forget. simpl. f_equal.
  induction (inflight s) as [|y l IH]; [done|]. simpl. by f_equal.
Qed.

(** A task run on its own is a run of the event loop in which nothing
    else happens between its awaits and their settlements. *)
Lemma run_in_loop w t s :
  rtc step (resume t s)
    {| ui := final (ui s) (run w t (ui s)); inflight := inflight s;
       network := network s ++ requests (run w t (ui s)) |}.
Proof.
  revert s. induction t as [|u k IH|url k IH|r k IH]; intros s.
  - cbn [run resume requests omap]. rewrite app_nil_r. destruct s. apply rtc_refl.
  - cbn [run resume]. rewrite final_cons, requests_updated.
    apply (IH {| ui := update u (ui s); inflight := inflight s;
                 network := network s |}).
  - cbn [run resume]. rewrite final_cons, requests_requested.
    eapply rtc_l.
    + apply (fetch_settles _ (length (inflight s)) url k (fetch_reply w)).
      simpl. by rewrite lookup_app_r, Nat.sub_diag.
    + rewrite forget_last.
      specialize (IH (fetch_reply w)
        {| ui := ui s; inflight := inflight s; network := network s ++ [url] |}).
      simpl in IH. by rewrite <- app_assoc in IH.
  - cbn [run resume]. eapply rtc_l.
    + apply (json_settles _ (length (inflight s)) r k (json_reply w)).
      simpl. by rewrite lookup_app_r, Nat.sub_diag.
    + rewrite forget_last.
      apply (IH (json_reply w)
        {| ui := ui s; inflight := inflight s; network := network s |}).
Qed.

(** A submission from a reachable state, left alone, ends in [submitted]. *)
Lemma submitted_reachable w s :
  reachable s ->
  reachable {| ui := submitted w (ui s); inflight := inflight s;
               network := network s ++ requests (submission w (ui s)) |}.
Proof.
  intros Hs. unfold reachable. etrans; [exact Hs|].
  eapply rtc_l; [apply onSubmitEditing|]. apply run_in_loop.
Qed.

Lemma typed_reachable text s :
  reachable s ->
  reachable {| ui := update (setWord text) (ui s); inflight := inflight s;
               network := network s |}.
Proof.
  intros Hs. unfold reachable. etrans; [exact Hs|].
  eapply rtc_l; [apply onChangeText|]. apply rtc_refl.
Qed.

Lemma resume_finally u s :
  resume (Call u finally_block) s
  = {| ui := update (setLoading false) (update u (ui s));
       inflight := inflight s; network := network s |}.
Proof. reflexivity. Qed.

Lemma steady_finally t s :
  ends_in_finally t -> Forall settles (inflight s) -> steady (resume t s).
Proof.
  intros [u ->] Hs. rewrite resume_finally. split; [done|]. by destruct u.
Qed.

Lemma steady_submit s :
  steady s -> steady (resume (fetchDefinition (word (ui s))) s).
Proof.
  intros [Hall Hidle]. unfold fetchDefinition.
  destruct (truthy (trim (word (ui s)))); cbn.
  - split; cbn.
    + apply Forall_app. split; [done|]. apply Forall_singleton.
      intros [response|]; [right | left; by eexists].
      eexists _, _. split; [reflexivity|].
      intros [data|]; [|by eexists]. destruct (ok response); by eexists.
    + intros E. by apply app_nil in E as [_ ?].
  - split; [done|]. exact Hidle.
Qed.

Lemma steady_forget i s :
  Forall settles (inflight s) -> Forall settles (inflight (forget i s)).
Proof.
  intros H. by apply Forall_delete.
Qed.

Lemma steady_step s s' : steady s -> step s s' -> steady s'.
Proof.
  intros Hs Hstep. destruct Hstep as [s text|s|s _|s i url k reply Hi|s i r k reply Hi].
  - exact Hs.
  - by apply steady_submit.
  - by apply steady_submit.
  - destruct Hs as [Hall _].
    assert (Hk : settles (Fetching url k)).
    { rewrite Forall_forall in Hall. apply Hall, list_elem_of_lookup. eauto. }
    apply (steady_forget i) in Hall.
    destruct (Hk reply) as [Hfin | (r & k' & -> & Hk')].
    + by apply steady_finally.
    + split; cbn.
      * apply Forall_app. split; [done|]. by apply Forall_singleton.
      * intros E. by apply app_nil in E as [_ ?].
  - destruct Hs as [Hall _].
    assert (Hk : settles (Parsing r k)).
    { rewrite Forall_forall in Hall. apply Hall, list_elem_of_lookup. eauto. }
    apply (steady_forget i) in Hall.
    by apply steady_finally.
Qed.

Lemma steady_steps s s' : rtc step s s' -> steady s -> steady s'.
Proof.
  induction 1 as [|s1 s2 s3 Hstep _ IH]; [done|].
  intros Hs. by apply IH, (steady_step s1).
Qed.

(** In the event loop, with submissions and settlements in any order,
    the loading flag is off whenever nothing is in flight. *)
Lemma loading_never_sticks s :
  reachable s -> inflight s = [] -> loading (ui s) = false.
Proof.
  intros Hs. assert (H : steady s); [|by destruct H].
  apply (steady_steps mounted s Hs). split; [constructor | done].
Qed.

(** ** Lists built with an index *)

Section Lists.
Context {A B C : Type}.

Lemma existsb_imap_false (p : B -> bool) (g : nat -> A -> B) (l : list A) :
  (forall i x, p (g i x) = false) -> existsb p (imap g l) = false.
Proof.
  revert g. induction l as [|x l IH]; intros g Hp; [done|].
  rewrite imap_cons. simpl. rewrite Hp. apply IH. intros i y. apply Hp.
Qed.

Lemma flat_map_imap (f : B -> list C) (g : nat -> A -> B) (l : list A) :
  flat_map f (imap g l) = concat (imap (fun i x => f (g i x)) l).
Proof.
  revert g. induction l as [|x l IH]; intros g; [done|].
  rewrite !imap_cons. simpl. by rewrite IH.
Qed.

Lemma flat_map_imap_const (f : B -> list C) (g : nat -> A -> B) (h : A -> list C)
    (l : list A) :
  (forall i x, f (g i x) = h x) -> flat_map f (imap g l) = flat_map h l.
Proof.
  revert g. induction l as [|x l IH]; intros g Hf; [done|].
  rewrite imap_cons. simpl. rewrite Hf. f_equal. apply IH. intros i y. apply Hf.
Qed.

Lemma flat_map_imap_nil (f : B -> list C) (g : nat -> A -> B) (l : list A) :
  (forall i x, f (g i x) = []) -> flat_map f (imap g l) = [].
Proof.
  revert g. induction l as [|x l IH]; intros g Hf; [done|].
  rewrite imap_cons. simpl. rewrite Hf. apply IH. intros i y. apply Hf.
Qed.

Lemma omap_imap_Some (f : nat -> B -> option C) (g : nat -> A -> B) (h : A -> C)
    (l : list A) :
  (forall i x, f i (g i x) = Some (h x)) ->
  omap id (imap f (imap g l)) = h <$> l.
Proof.
  revert f g. induction l as [|x l IH]; intros f g Hf; [done|].
  rewrite !imap_cons. simpl. rewrite Hf. simpl. f_equal.
  apply IH. intros i y. apply Hf.
Qed.

Lemma omap_imap_const (f : B -> option C) (g : nat -> A -> B) (h : A -> C)
    (l : list A) :
  (forall i x, f (g i x) = Some (h x)) -> omap f (imap g l) = h <$> l.
Proof.
  revert g. induction l as [|x l IH]; intros g Hf; [done|].
  rewrite imap_cons. simpl. rewrite Hf. f_equal. apply IH. intros i y. apply Hf.
Qed.

Lemma filter_existsb_false (p : A -> bool) (l : list A) :
  existsb p l = false -> filter (fun x => p x = true) l = [].
Proof.
  induction l as [|x l IH]; [done|]. simpl. intros [Hx Hl]%orb_false_iff.
  rewrite filter_cons. destruct (decide (p x = true)); [congruence|]. by apply IH.
Qed.

End Lists.

(** ** Trees *)

Lemma elements_Elem c s k ch :
  elements (Elem c s k ch) = Elem c s k ch :: flat_map elements ch.
Proof. reflexivity. Qed.

Lemma text_Elem c s k ch : text (Elem c s k ch) = flat_map text ch.
Proof. reflexivity. Qed.

Lemma shows_Elem p c s k ch :
  shows p (Elem c s k ch) = p (Elem c s k ch) || existsb (shows p) ch.
Proof.
  unfold shows. rewrite elements_Elem. simpl. f_equal.
  induction ch as [|n ch IH]; [done|]. simpl. by rewrite existsb_app, IH.
Qed.

Lemma shows_leaf p n :
  match n with Elem _ _ _ _ => False | _ => True end -> shows p n = false.
Proof. by destruct n. Qed.

Lemma lists_Elem c s k ch :
  lists (Elem c s k ch) =
  (if is_list (Elem c s k ch) then [Elem c s k ch] else [])
  ++ flat_map lists ch.
Proof.
  unfold lists. rewrite elements_Elem, filter_cons.
  destruct (decide _) as [->|E].
  - simpl. f_equal. induction ch as [|n ch IH]; [done|].
    simpl. by rewrite filter_app, IH.
  - apply not_true_is_false in E. rewrite E. simpl.
    induction ch as [|n ch IH]; [done|]. simpl. by rewrite filter_app, IH.
Qed.

Lemma lists_leaf n :
  match n with Elem _ _ _ _ => False | _ => True end -> lists n = [].
Proof. by destruct n. Qed.

Lemma lists_hidden n : shows is_list n = false -> lists n = [].
Proof. apply filter_existsb_false. Qed.

Lemma lines_Elem c s k ch :
  lines (Elem c s k ch) =
  match line (Elem c s k ch) with Some l => [l] | None => [] end
  ++ flat_map lines ch.
Proof.
  unfold lines. rewrite elements_Elem.
  assert (E : omap line (flat_map elements ch)
              = flat_map (fun n => omap line (elements n)) ch).
  { induction ch as [|n ch IH]; [done|]. simpl. by rewrite omap_app, IH. }
  change (omap line (?x :: ?l)) with
    (match line x with Some y => y :: omap line l | None => omap line l end).
  rewrite E. by destruct (line _).
Qed.

Lemma lines_leaf n :
  match n with Elem _ _ _ _ => False | _ => True end -> lines n = [].
Proof. by destruct n. Qed.

(** ** Rows of the result list *)

Section Rows.
Variable p : Node -> bool.
Hypothesis p_View : forall s k ch, p (Elem View s k ch) = false.
Hypothesis p_Text :
  forall s k ch, s <> styles.errorText -> p (Elem Text s k ch) = false.

Lemma row_hides key item : shows p (keyed key (renderDefinition item)) = false.
Proof.
  unfold renderDefinition, keyed. rewrite shows_Elem, p_View. simpl.
  rewrite shows_Elem, p_Text by done. simpl.
  apply existsb_imap_false. intros i def.
  rewrite shows_Elem, p_View. simpl.
  rewrite shows_Elem, p_Text by done. simpl.
  destruct (Api.example def) as [ex|]; [|done].
  destruct (truthy ex); [|done].
  by rewrite shows_Elem, p_Text.
Qed.

Lemma list_hides_rows data : shows p (flatList data) = p (flatList data).
Proof.
  unfold flatList at 1. rewrite shows_Elem.
  rewrite existsb_imap_false; [apply orb_false_r|].
  intros i item. apply row_hides.
Qed.

End Rows.

Lemma lines_block index def key :
  lines
    (Elem View styles.definitionBlock key
       [ Elem Text styles.definitionText None
           [Number (index + 1); Chars (lit ". "); Chars (Api.definition def)];
         match Api.example def with
         | Some example =>
             if truthy example then
               Elem Text styles.exampleText None
                 [Chars (lit "Example: " ++ quote); Chars example; Chars quote]
             else Blank
         | None => Blank
         end ])
  = numbered index def.
Proof.
  unfold numbered, carries_example.
  rewrite lines_Elem. cbn. rewrite !app_nil_r. f_equal.
  destruct (Api.example def) as [ex|]; [|done].
  destruct (truthy ex); [|done].
  rewrite lines_Elem. cbn. by rewrite !app_nil_r, <- !app_assoc.
Qed.

Lemma lines_row key item :
  lines (keyed key (renderDefinition item)) = section_of item.
Proof.
  unfold renderDefinition, keyed, section_of.
  rewrite lines_Elem. cbn. rewrite app_nil_r. f_equal.
  rewrite flat_map_imap. f_equal. apply imap_ext. intros i def _.
  apply lines_block.
Qed.

Lemma lines_flatList data :
  lines (flatList data) = flat_map section_of (default [] data).
Proof.
  unfold flatList. rewrite lines_Elem. cbn.
  apply flat_map_imap_const. intros i item. apply lines_row.
Qed.

Lemma lists_flatList data : lists (flatList data) = [flatList data].
Proof.
  unfold flatList at 1. rewrite lists_Elem. cbn. f_equal.
  apply flat_map_imap_nil. intros i item. apply lists_hidden.
  by apply row_hides.
Qed.

Lemma unnumbered_numbered index (s : JsString) :
  unnumbered index (decimal (index + 1) ++ lit ". " ++ s) = s.
Proof. unfold unnumbered. by rewrite drop_app_add. Qed.

Lemma unquoted_quoted (s : JsString) :
  unquoted ((lit "Example: " ++ quote) ++ s ++ quote) = s.
Proof.
  unfold unquoted.
  rewrite (drop_app_length' (lit "Example: " ++ quote)) by reflexivity.
  rewrite !length_app.
  change (length (lit "Example: ")) with 9%nat.
  change (length quote) with 1%nat.
  replace (9 + 1 + (length s + 1) - 11)%nat with (length s) by lia.
  apply take_app_length.
Qed.

Lemma extract_block_rendered index def key :
  extract_block index
    (Elem View styles.definitionBlock key
       [ Elem Text styles.definitionText None
           [Number (index + 1); Chars (lit ". "); Chars (Api.definition def)];
         match Api.example def with
         | Some example =>
             if truthy example then
               Elem Text styles.exampleText None
                 [Chars (lit "Example: " ++ quote); Chars example; Chars quote]
             else Blank
         | None => Blank
         end ])
  = Some (Api.definition def, carries_example def).
Proof.
  unfold extract_block, carries_example. f_equal. f_equal.
  - rewrite text_Elem. cbn. rewrite app_nil_r. apply unnumbered_numbered.
  - destruct (Api.example def) as [ex|]; [|done].
    destruct (truthy ex); [|done].
    rewrite text_Elem. cbn. rewrite app_nil_r. f_equal. apply unquoted_quoted.
Qed.

Lemma extract_row_rendered key item :
  extract_row (keyed key (renderDefinition item))
  = Some (shown_fields_of_meaning item).
Proof.
  unfold renderDefinition, keyed, extract_row, shown_fields_of_meaning.
  f_equal. f_equal.
  - rewrite text_Elem. cbn. apply app_nil_r.
  - apply omap_imap_Some. intros i def. apply extract_block_rendered.
Qed.

Lemma count_numbered (f : nat -> Api.Definition_ -> list (styles.Style * JsString))
    (defs : list Api.Definition_) :
  (forall i def,
     length (filter (fun l => l.1 = styles.definitionText) (f i def)) = 1%nat) ->
  length (filter (fun l => l.1 = styles.definitionText) (concat (imap f defs)))
  = length defs.
Proof.
  revert f. induction defs as [|def defs IH]; intros f Hf; [done|].
  rewrite imap_cons. cbn [concat]. rewrite filter_app, length_app, Hf.
  cbn [length]. f_equal. apply IH. intros i d. apply Hf.
Qed.

Lemma count_section item :
  length (filter (fun l => l.1 = styles.definitionText) (section_of item))
  = length (Api.definitions item).
Proof.
  unfold section_of. rewrite filter_cons.
  destruct (decide _) as [E|_]; [discriminate E|].
  apply count_numbered. intros i def. unfold numbered.
  rewrite filter_cons. destruct (decide _) as [_|E]; [|by destruct E].
  destruct (carries_example def); [|done].
  rewrite filter_cons. by destruct (decide _) as [E|_]; [discriminate E|].
Qed.

Lemma count_sections items :
  length (filter (fun l => l.1 = styles.definitionText)
            (flat_map section_of items))
  = sum_list (length ∘ Api.definitions <$> items).
Proof.
  induction items as [|item items IH]; [done|].
  cbn [flat_map]. rewrite filter_app, length_app, count_section, IH. done.
Qed.

(** ** The rendered screen *)

Lemma results_value st :
  results st =
  Value (match definition st with
         | Some data => flatList (Api.meanings <$> Api.first data)
         | None => Blank
         end).
Proof. unfold results. by destruct (definition st). Qed.

Lemma render_total st : exists tree, render st = Value tree.
Proof. unfold render. rewrite results_value. by eexists. Qed.

(** Which of the three conditional parts a rendered state shows. *)
Lemma render_parts st tree :
  render st = Value tree ->
  shows is_spinner tree = loading st
  /\ shows is_error_line tree = truthy (error st)
  /\ shows is_list tree = bool_decide (is_Some (definition st)).
Proof.
  unfold render. rewrite results_value. intros [= <-].
  repeat split.
  - repeat (rewrite shows_Elem; simpl).
    destruct (loading st), (truthy (error st)), (definition st) as [d|]; simpl;
      rewrite ?list_hides_rows; done.
  - repeat (rewrite shows_Elem; simpl).
    destruct (loading st), (truthy (error st)), (definition st) as [d|]; simpl;
      rewrite ?list_hides_rows; try done; by intros [] ? ? ?.
  - repeat (rewrite shows_Elem; simpl).
    destruct (loading st), (truthy (error st)), (definition st) as [d|]; simpl;
      rewrite ?list_hides_rows; done.
Qed.

Lemma lists_render st tree :
  render st = Value tree ->
  lists tree =
  match definition st with
  | Some data => [flatList (Api.meanings <$> Api.first data)]
  | None => []
  end.
Proof.
  unfold render. rewrite results_value. intros [= <-].
  destruct (loading st), (truthy (error st)), (definition st) as [d|].
  all: try remember (flatList _) as found eqn:Efound.
  all: repeat (rewrite lists_Elem; cbn [flat_map app is_list]).
  all: rewrite ?(lists_leaf Blank), ?lists_leaf by done.
  all: subst; rewrite ?lists_flatList; done.
Qed.

Lemma result_lines_render st tree :
  render st = Value tree ->
  result_lines tree =
  match definition st with
  | Some data => flat_map section_of (default [] (Api.meanings <$> Api.first data))
  | None => []
  end.
Proof.
  intros H. unfold result_lines. rewrite (lists_render st tree H).
  destruct (definition st) as [d|]; [|done]. cbn. rewrite app_nil_r.
  apply lines_flatList.
Qed.

Lemma lines_render st tree :
  render st = Value tree ->
  lines tree =
  (styles.title, lit "Dictionary") :: (styles.buttonText, lit "Search")
  :: (if truthy (error st) then [(styles.errorText, error st)] else [])
  ++ result_lines tree.
Proof.
  intros H. rewrite (result_lines_render st tree H). revert H.
  unfold render. rewrite results_value. intros [= <-].
  destruct (loading st), (truthy (error st)), (definition st) as [d|].
  all: try remember (flatList _) as found eqn:Efound.
  all: repeat (rewrite lines_Elem; cbn [flat_map app line text]).
  all: rewrite ?(lines_leaf Blank), ?lines_leaf by done.
  all: subst; rewrite ?lines_flatList, ?app_nil_r; done.
Qed.

Lemma extract_render st tree :
  render st = Value tree ->
  extract tree =
  match definition st with
  | Some data =>
      shown_fields_of_meaning <$> default [] (Api.meanings <$> Api.first data)
  | None => []
  end.
Proof.
  intros H. unfold extract. rewrite (lists_render st tree H).
  destruct (definition st) as [d|]; [|done]. cbn. rewrite app_nil_r.
  apply omap_imap_const. intros i item. apply extract_row_rendered.
Qed.

(** * The claims *)

(** C1.  With a query that is empty once trimmed (empty, or white space and
    line terminators only, see [trim_nil]), [fetchDefinition] sets the error
    to "Please enter a word.", sends no request, neither on its own nor
    in the event loop, and never turns the loading flag on: no
    [setLoading(true)] is called and [loading] keeps its value throughout. *)
Theorem empty_query_is_rejected (w : World) (st : State) :
  trim (word st) = [] ->
  error (submitted w st) = lit "Please enter a word."
  /\ requests (submission w st) = []
  /\ (setLoading true ∉ updates (submission w st))
  /\ Forall (fun s => loading s = loading st) (states (submission w st))
  /\ forall s, ui s = st ->
       network (resume (fetchDefinition (word st)) s) = network s
       /\ inflight (resume (fetchDefinition (word st)) s) = inflight s.
Proof.
  intros H. unfold submitted. rewrite (submission_rejected w st H).
  repeat split.
  - cbn. intros Hin. apply list_elem_of_singleton in Hin. discriminate.
  - by repeat constructor.
  - unfold fetchDefinition. by rewrite H.
  - unfold fetchDefinition. by rewrite H.
Qed.

Lemma empty_query_is_rejected_witness :
  let st := {| word := [0x20; 0x09; 0xA0]; definition := None;
               loading := false; error := [] |} in
  let w := {| fetch_reply := None; json_reply := None |} in
  trim (word st) = []
  /\ error (submitted w st) = lit "Please enter a word."
  /\ requests (submission w st) = [].
Proof.
  intros st w. split; [reflexivity|].
  destruct (empty_query_is_rejected w st eq_refl) as (He & Hr & _).
  split; [exact He | exact Hr].
Defined.

(** C2.  A submission that passes validation calls [setLoading(true)]
    first, resets result and error, and sends the request with [loading]
    true; whatever the network answers (response or rejection, body or
    parse failure, 2xx or not) it ends with [loading] false, in a state
    that is either a success (a result, no error) or an error (no result,
    a non-empty error), never both.  [loading_never_sticks] is the same
    for the event loop. *)
Theorem loading_brackets_the_request (w : World) (st : State) :
  trim (word st) <> [] ->
  take 4 (fst <$> submission w st) =
    [Updated (setLoading true); Updated (setDefinition None);
     Updated (setError []); Requested (endpoint ++ word st)]
  /\ (forall url s, (Requested url, s) ∈ submission w st -> loading s = true)
  /\ loading (submitted w st) = false
  /\ ((exists data, definition (submitted w st) = Some data
                    /\ error (submitted w st) = [])
      \/ (definition (submitted w st) = None /\ error (submitted w st) <> [])).
Proof.
  intros H. split; [|split; [|split]].
  - destruct (submission_accepted w st H) as (tail & -> & _). reflexivity.
  - destruct (submission_accepted w st H) as (tail & -> & Hreq & _).
    intros url s Hin. rewrite !elem_of_cons in Hin.
    destruct Hin as [Hin|[Hin|[Hin|[Hin|Hin]]]]; try discriminate.
    + by inversion Hin.
    + exfalso. apply list_elem_of_lookup in Hin as [i Hi].
      assert (Hurl : url ∈ requests tail).
      { unfold requests. apply list_elem_of_omap. exists (Requested url, s).
        split; [|done]. apply list_elem_of_lookup. eauto. }
      rewrite Hreq in Hurl. by apply elem_of_nil in Hurl.
  - rewrite (submitted_accepted w st H).
    destruct (fetch_reply w), (json_reply w); try destruct (ok _); reflexivity.
  - rewrite (submitted_accepted w st H).
    destruct (fetch_reply w) as [r|], (json_reply w) as [d|];
      try destruct (ok r); simpl; eauto.
    right. split; [done|]. by apply js_or_truthy.
Qed.

Lemma loading_brackets_the_request_witness :
  let w := {| fetch_reply := Some {| status := 500 |}; json_reply := None |} in
  let st := {| word := lit "hello"; definition := None; loading := false;
               error := [] |} in
  trim (word st) <> []
  /\ (forall url s, (Requested url, s) ∈ submission w st -> loading s = true)
  /\ loading (submitted w st) = false.
Proof.
  intros w st.
  assert (Hw : trim (word st) <> []) by (vm_compute; discriminate).
  split; [exact Hw|].
  destruct (loading_brackets_the_request w st Hw) as (_ & Hreq & Hend & _).
  split; [exact Hreq | exact Hend].
Defined.

(** C3, amended.  On a response that is not 2xx and whose body parses to
    a value of a declared shape (an [ApiError] object whose title is a
    string or is missing, or an array of entries, which has no title), the
    error becomes the body's title when the title is there and is not the
    empty string; when the title is missing or empty it becomes
    "Could not find a definition.". *)
Theorem api_error_title_or_fallback
    (w : World) (st : State) (response : Response) (data : Api.Data) :
  trim (word st) <> [] ->
  fetch_reply w = Some response ->
  ok response = false ->
  json_reply w = Some data ->
  (forall t, Api.title_of data = Some t -> t <> [] ->
             error (submitted w st) = t)
  /\ (Api.title_of data = None \/ Api.title_of data = Some [] ->
      error (submitted w st) = lit "Could not find a definition.").
Proof.
  intros H Hf Hok Hj. rewrite (submitted_accepted w st H), Hf, Hj, Hok. simpl.
  split.
  - intros t -> Ht. simpl. apply truthy_true in Ht. by rewrite Ht.
  - by intros [-> | ->].
Qed.

Lemma api_error_title_or_fallback_witness :
  let data := Api.Problem {| Api.title := Some (lit "No Definitions Found");
                             Api.message := None; Api.resolution := None |} in
  let w := {| fetch_reply := Some {| status := 404 |}; json_reply := Some data |} in
  let st := {| word := lit "qwzx"; definition := None; loading := false;
               error := [] |} in
  trim (word st) <> []
  /\ ok {| status := 404 |} = false
  /\ error (submitted w st) = lit "No Definitions Found".
Proof.
  intros data w st.
  assert (Hw : trim (word st) <> []) by (vm_compute; discriminate).
  split; [exact Hw|]. split; [reflexivity|].
  apply (proj1 (api_error_title_or_fallback w st {| status := 404 |} data
                  Hw eq_refl eq_refl eq_refl) (lit "No Definitions Found")).
  - reflexivity.
  - vm_compute; discriminate.
Defined.

(** C3 as stated fails: a 404 whose body has an empty title does not
    leave the title in the error, the fallback is stored. *)
Lemma empty_title_is_not_stored :
  let data := Api.Problem {| Api.title := Some []; Api.message := None;
                             Api.resolution := None |} in
  let w := {| fetch_reply := Some {| status := 404 |}; json_reply := Some data |} in
  let st := {| word := lit "qwzx"; definition := None; loading := false;
               error := [] |} in
  trim (word st) <> []
  /\ ok {| status := 404 |} = false
  /\ exists t, Api.title_of data = Some t /\ error (submitted w st) <> t.
Proof.
  intros data w st. split; [vm_compute; discriminate|]. split; [reflexivity|].
  exists []. split; [reflexivity|]. vm_compute; discriminate.
Qed.

(** C4.  When [fetch] rejects or [response.json()] rejects, the error is
    the one fixed message of the [catch] block, which never looks at the
    exception, the result is [null] and [loading] is false. *)
Theorem thrown_request_gives_network_error (w : World) (st : State) :
  trim (word st) <> [] ->
  fetch_reply w = None
  \/ (exists response, fetch_reply w = Some response /\ json_reply w = None) ->
  error (submitted w st) =
    lit "An error occurred. Please check your network connection."
  /\ definition (submitted w st) = None
  /\ loading (submitted w st) = false.
Proof.
  intros H Hthrown. rewrite (submitted_accepted w st H).
  destruct Hthrown as [-> | (r & -> & ->)]; [|done].
  by destruct (json_reply w).
Qed.

Lemma thrown_request_gives_network_error_witness :
  let shown := Api.Entries [{| Api.word := lit "hello"; Api.meanings := [] |}] in
  let w := {| fetch_reply := None; json_reply := None |} in
  let st := {| word := lit "hello"; definition := Some shown; loading := false;
               error := [] |} in
  trim (word st) <> []
  /\ error (submitted w st) =
       lit "An error occurred. Please check your network connection."
  /\ definition (submitted w st) = None.
Proof.
  intros shown w st.
  assert (Hw : trim (word st) <> []) by (vm_compute; discriminate).
  split; [exact Hw|].
  destruct (thrown_request_gives_network_error w st Hw (or_introl eq_refl))
    as (He & Hd & _).
  split; [exact He | exact Hd].
Defined.

(** C5.  A state whose result is a non-empty array of entries renders the
    first entry and nothing of the others: the lines of the list are, for
    each meaning of that entry in order, its part of speech, then its
    definitions numbered from 1, each followed by its example line exactly
    when it carries an example ([listing]); the whole screen is the title,
    the button, the error line if any, and these lines. *)
Theorem first_entry_is_listed
    (st : State) (entry : Api.DictionaryEntry) (others : Api.ApiResponse) :
  definition st = Some (Api.Entries (entry :: others)) ->
  exists tree,
    render st = Value tree
    /\ result_lines tree = flat_map section_of (Api.meanings entry)
    /\ lines tree =
       (styles.title, lit "Dictionary") :: (styles.buttonText, lit "Search")
       :: (if truthy (error st) then [(styles.errorText, error st)] else [])
       ++ listing (entry :: others).
Proof.
  intros Hd. destruct (render_total st) as [tree Htree]. exists tree.
  assert (Hl : result_lines tree = flat_map section_of (Api.meanings entry)).
  { rewrite (result_lines_render st tree Htree), Hd. reflexivity. }
  split; [done|]. split; [done|].
  rewrite (lines_render st tree Htree), Hl. reflexivity.
Qed.

Lemma first_entry_is_listed_witness :
  let greeting :=
    {| Api.definition := lit "a greeting";
       Api.example := Some (lit "hello there") |} in
  let entry :=
    {| Api.word := lit "hello";
       Api.meanings := [{| Api.partOfSpeech := lit "noun";
                           Api.definitions := [greeting] |}] |} in
  let st := {| word := lit "hello"; definition := Some (Api.Entries [entry]);
               loading := false; error := [] |} in
  definition st = Some (Api.Entries [entry])
  /\ exists tree,
       render st = Value tree
       /\ result_lines tree =
          [ (styles.partOfSpeech, lit "noun");
            (styles.definitionText, lit "1. a greeting");
            (styles.exampleText, lit "Example: " ++ quote ++ lit "hello there" ++ quote) ].
Proof.
  intros greeting entry st. split; [reflexivity|].
  destruct (first_entry_is_listed st entry [] eq_refl) as (tree & Ht & Hl & _).
  exists tree. split; [exact Ht|]. rewrite Hl. reflexivity.
Defined.

(** C6, amended.  A submission that passes validation sends exactly one
    request, to the endpoint followed by the query as typed: not trimmed,
    not encoded. *)
Theorem request_url_is_raw_word (w : World) (st : State) :
  trim (word st) <> [] ->
  requests (submission w st) = [endpoint ++ word st]
  /\ forall s, ui s = st ->
       network (resume (fetchDefinition (word st)) s)
       = network s ++ [endpoint ++ word st].
Proof.
  intros H. split.
  - destruct (submission_accepted w st H) as (tail & -> & Hreq & _).
    by rewrite !requests_updated, requests_requested, Hreq.
  - intros s _. apply truthy_true in H. unfold fetchDefinition. by rewrite H.
Qed.

Lemma request_url_is_raw_word_witness :
  let w := {| fetch_reply := None; json_reply := None |} in
  let st := {| word := lit " hello "; definition := None; loading := false;
               error := [] |} in
  trim (word st) <> []
  /\ requests (submission w st) = [endpoint ++ lit " hello "].
Proof.
  intros w st.
  assert (Hw : trim (word st) <> []) by (vm_compute; discriminate).
  split; [exact Hw|].
  exact (proj1 (request_url_is_raw_word w st Hw)).
Defined.

(** C6 as stated fails: for the query [ice cream] the request carries the
    space, not [ice%20cream]. *)
Lemma request_url_is_not_encoded :
  let w := {| fetch_reply := None; json_reply := None |} in
  let st := {| word := lit "ice cream"; definition := None; loading := false;
               error := [] |} in
  trim (word st) <> []
  /\ encodeURIComponent (word st) = Some (lit "ice%20cream")
  /\ requests (submission w st) <> [endpoint ++ lit "ice%20cream"].
Proof.
  intros w st. split; [vm_compute; discriminate|]. split; [reflexivity|].
  vm_compute; discriminate.
Qed.

(** C7, amended.  After a 2xx response with an array of entries, reading
    the rendered list back gives the parts of speech, the definitions and
    the examples carried of the first entry, in order, and the list has as
    many definition lines as the first entry has definitions. *)
Theorem first_entry_round_trip
    (w : World) (st : State) (response : Response) (entries : Api.ApiResponse) :
  trim (word st) <> [] ->
  fetch_reply w = Some response ->
  ok response = true ->
  json_reply w = Some (Api.Entries entries) ->
  exists tree,
    render (submitted w st) = Value tree
    /\ extract tree = shown_fields entries
    /\ definition_count tree =
       sum_list (length ∘ Api.definitions <$>
                   match entries with
                   | entry :: _ => Api.meanings entry
                   | [] => []
                   end).
Proof.
  intros H Hf Hok Hj.
  destruct (render_total (submitted w st)) as [tree Htree]. exists tree.
  split; [done|].
  assert (Hd : definition (submitted w st) = Some (Api.Entries entries)).
  { by rewrite (submitted_accepted w st H), Hf, Hj, Hok. }
  split.
  - rewrite (extract_render _ tree Htree), Hd. by destruct entries.
  - unfold definition_count.
    rewrite (result_lines_render _ tree Htree), Hd, <- count_sections.
    by destruct entries.
Qed.

Lemma first_entry_round_trip_witness :
  let greeting :=
    {| Api.definition := lit "a greeting";
       Api.example := Some (lit "hello there") |} in
  let entry :=
    {| Api.word := lit "hello";
       Api.meanings := [{| Api.partOfSpeech := lit "noun";
                           Api.definitions := [greeting] |}] |} in
  let w := {| fetch_reply := Some {| status := 200 |};
              json_reply := Some (Api.Entries [entry]) |} in
  let st := {| word := lit "hello"; definition := None; loading := false;
               error := [] |} in
  trim (word st) <> []
  /\ ok {| status := 200 |} = true
  /\ exists tree,
       render (submitted w st) = Value tree
       /\ extract tree =
          [(lit "noun", [(lit "a greeting", Some (lit "hello there"))])]
       /\ definition_count tree = 1%nat.
Proof.
  intros greeting entry w st.
  assert (Hw : trim (word st) <> []) by (vm_compute; discriminate).
  split; [exact Hw|]. split; [reflexivity|].
  destruct (first_entry_round_trip w st {| status := 200 |} [entry]
              Hw eq_refl eq_refl eq_refl) as (tree & Ht & He & Hc).
  exists tree. split; [exact Ht|]. split; [exact He | exact Hc].
Defined.

(** C7 as stated fails: of two entries the second is not rendered, so the
    list has one definition where the response has two; and an example
    that is the empty string is not rendered either. *)
Lemma later_entries_are_lost :
  let river :=
    {| Api.word := lit "bank";
       Api.meanings :=
         [{| Api.partOfSpeech := lit "noun";
             Api.definitions :=
               [{| Api.definition := lit "land beside a river";
                   Api.example := None |}] |}] |} in
  let money :=
    {| Api.word := lit "bank";
       Api.meanings :=
         [{| Api.partOfSpeech := lit "noun";
             Api.definitions :=
               [{| Api.definition := lit "a place to keep money";
                   Api.example := Some [] |}] |}] |} in
  let st := {| word := lit "bank"; definition := None; loading := false;
               error := [] |} in
  let found entries :=
    {| fetch_reply := Some {| status := 200 |};
       json_reply := Some (Api.Entries entries) |} in
  trim (word st) <> []
  /\ ok {| status := 200 |} = true
  /\ (exists tree,
        render (submitted (found [river; money]) st) = Value tree
        /\ extract tree <> fields [river; money]
        /\ definition_count tree = 1%nat
        /\ length (fields [river; money] ≫= snd) = 2%nat)
  /\ (exists tree,
        render (submitted (found [money]) st) = Value tree
        /\ extract tree <> fields [money]).
Proof.
  intros river money st found. split; [vm_compute; discriminate|].
  split; [reflexivity|]. split.
  - eexists. split; [reflexivity|].
    split; [vm_compute; discriminate|]. split; reflexivity.
  - eexists. split; [reflexivity|]. vm_compute; discriminate.
Qed.

(** C8, amended.  The tree is a function of the state ([render]) with
    three parts, each shown on its own condition: the spinner is in it
    exactly when [loading] is true, the error line exactly when [error] is
    not empty, the result list exactly when a result is stored.  So none of
    them is shown when idle (no result, no error, not loading, whatever the
    field holds), and error line and result list are both shown whenever
    the error is not empty and a result is stored. *)
Theorem parts_are_shown_independently (st : State) (text : JsString) :
  (exists tree,
     render st = Value tree
     /\ shows is_spinner tree = loading st
     /\ shows is_error_line tree = truthy (error st)
     /\ shows is_list tree = bool_decide (is_Some (definition st)))
  /\ (exists tree,
        render {| word := text; definition := None; loading := false;
                  error := [] |} = Value tree
        /\ shows is_spinner tree = false
        /\ shows is_error_line tree = false
        /\ shows is_list tree = false).
Proof.
  split.
  - destruct (render_total st) as [tree Htree]. exists tree.
    split; [done|]. by apply render_parts.
  - destruct (render_total {| word := text; definition := None;
                              loading := false; error := [] |})
      as [tree Htree].
    exists tree. split; [done|]. by apply render_parts in Htree.
Qed.

(** C8 as stated fails: look a word up, clear the field, submit again.
    The state is reachable and shows the error line above the old list. *)
Lemma error_and_list_together :
  let entry :=
    {| Api.word := lit "hello";
       Api.meanings := [{| Api.partOfSpeech := lit "noun";
                           Api.definitions :=
                             [{| Api.definition := lit "a greeting";
                                 Api.example := None |}] |}] |} in
  let s :=
    {| ui := {| word := []; definition := Some (Api.Entries [entry]);
                loading := false; error := lit "Please enter a word." |};
       inflight := [];
       network := [endpoint ++ lit "hello"] |} in
  reachable s
  /\ exists tree,
       render (ui s) = Value tree
       /\ shows is_error_line tree = true
       /\ shows is_list tree = true.
Proof.
  intros entry s. split.
  - pose (w := {| fetch_reply := Some {| status := 200 |};
                  json_reply := Some (Api.Entries [entry]) |}).
    pose (nothing := {| fetch_reply := None; json_reply := None |}).
    assert (H1 := typed_reachable (lit "hello") mounted (rtc_refl _ _)).
    assert (H2 := submitted_reachable w _ H1).
    assert (H3 := typed_reachable [] _ H2).
    exact (submitted_reachable nothing _ H3).
  - eexists. split; [reflexivity|]. split; reflexivity.
Qed.

(** C9.  Rejecting an empty query writes the error and nothing else: one
    setter call, [word], [definition] and [loading] as before; the screen
    keeps the list it had (and the spinner, if it was on) and now has the
    error line as well. *)
Theorem rejection_changes_only_the_error (w : World) (st : State) :
  trim (word st) = [] ->
  submitted w st =
    {| word := word st; definition := definition st; loading := loading st;
       error := lit "Please enter a word." |}
  /\ updates (submission w st) = [setError (lit "Please enter a word.")]
  /\ exists tree tree',
       render st = Value tree
       /\ render (submitted w st) = Value tree'
       /\ lists tree' = lists tree
       /\ shows is_list tree' = bool_decide (is_Some (definition st))
       /\ shows is_spinner tree' = loading st
       /\ shows is_error_line tree' = true.
Proof.
  intros H. unfold submitted. rewrite (submission_rejected w st H).
  split; [reflexivity|]. split; [reflexivity|].
  cbn [final last].
  destruct (render_total st) as [tree Htree].
  destruct (render_total (update (setError (lit "Please enter a word.")) st))
    as [tree' Htree'].
  exists tree, tree'. split; [done|]. split; [done|].
  rewrite (lists_render _ _ Htree), (lists_render _ _ Htree').
  split; [reflexivity|].
  apply render_parts in Htree' as (Hs & He & Hl). by rewrite Hs, He, Hl.
Qed.

Lemma rejection_changes_only_the_error_witness :
  let entry :=
    {| Api.word := lit "hello";
       Api.meanings := [{| Api.partOfSpeech := lit "noun";
                           Api.definitions :=
                             [{| Api.definition := lit "a greeting";
                                 Api.example := None |}] |}] |} in
  let w := {| fetch_reply := None; json_reply := None |} in
  let st := {| word := lit "  "; definition := Some (Api.Entries [entry]);
               loading := false; error := [] |} in
  trim (word st) = []
  /\ submitted w st =
       {| word := lit "  "; definition := Some (Api.Entries [entry]);
          loading := false; error := lit "Please enter a word." |}.
Proof.
  intros entry w st. split; [reflexivity|].
  exact (proj1 (rejection_changes_only_the_error w st eq_refl)).
Defined.

(** C10.  [render] never throws.  With an empty array as result,
    [definition[0]?.meanings] is [undefined], where [definition[0].meanings]
    would throw, and the list is rendered with no rows; a meaning without
    definitions is rendered as its part of speech alone. *)
Theorem rendering_never_throws (st : State) (pos : JsString) :
  (exists tree, render st = Value tree)
  /\ (exists tree,
        render (update (setDefinition (Some (Api.Entries []))) st) = Value tree
        /\ lists tree = [Elem FlatList styles.resultsContainer None []])
  /\ optional_member Api.meanings (Api.first (Api.Entries [])) = Value None
  /\ member Api.meanings (Api.first (Api.Entries [])) = TypeError
  /\ renderDefinition {| Api.partOfSpeech := pos; Api.definitions := [] |}
     = Elem View styles.definitionContainer None
         [Elem Text styles.partOfSpeech None [Chars pos]]
  /\ lines (renderDefinition {| Api.partOfSpeech := pos; Api.definitions := [] |})
     = [(styles.partOfSpeech, pos)].
Proof.
  split; [apply render_total|]. split.
  - destruct (render_total (update (setDefinition (Some (Api.Entries []))) st))
      as [tree Htree].
    exists tree. split; [done|]. by rewrite (lists_render _ _ Htree).
  - repeat split. cbn. by rewrite app_nil_r.
Qed.

(** * Further properties of the component *)

(** ** The handler, by its continuations *)

Lemma fetchDefinition_accepted word :
  trim word <> [] ->
  fetchDefinition word =
    Call (setLoading true)
      (Call (setDefinition None)
         (Call (setError [])
            (AwaitFetch (endpoint ++ word) fetched_then))).
Proof. intros H%truthy_true. unfold fetchDefinition. by rewrite H. Qed.

Lemma fetchDefinition_rejected word :
  trim word = [] ->
  fetchDefinition word = Call (setError (lit "Please enter a word.")) Return.
Proof. intros H. unfold fetchDefinition. by rewrite H. Qed.

Lemma resume_accepted s :
  trim (word (ui s)) <> [] ->
  resume (fetchDefinition (word (ui s))) s =
    {| ui := {| word := word (ui s); definition := None; loading := true;
                error := [] |};
       inflight := inflight s ++ [Fetching (endpoint ++ word (ui s)) fetched_then];
       network := network s ++ [endpoint ++ word (ui s)] |}.
Proof. intros H. by rewrite (fetchDefinition_accepted _ H). Qed.

Lemma resume_rejected s :
  trim (word (ui s)) = [] ->
  resume (fetchDefinition (word (ui s))) s =
    {| ui := update (setError (lit "Please enter a word.")) (ui s);
       inflight := inflight s; network := network s |}.
Proof. intros H. by rewrite (fetchDefinition_rejected _ H). Qed.

(** ** The controls of the screen *)

Lemma omap_elements_Elem {A} (f : Node -> option A) c s k ch :
  omap f (elements (Elem c s k ch)) =
  match f (Elem c s k ch) with Some a => [a] | None => [] end
  ++ flat_map (fun n => omap f (elements n)) ch.
Proof.
  rewrite elements_Elem.
  assert (E : omap f (flat_map elements ch)
              = flat_map (fun n => omap f (elements n)) ch).
  { induction ch as [|n ch IH]; [done|]. simpl. by rewrite omap_app, IH. }
  change (omap f (?x :: ?l)) with
    (match f x with Some y => y :: omap f l | None => omap f l end).
  rewrite E. by destruct (f _).
Qed.

Lemma omap_hidden {A} (f : Node -> option A) n :
  shows (fun x => bool_decide (is_Some (f x))) n = false ->
  omap f (elements n) = [].
Proof.
  unfold shows. induction (elements n) as [|x l IH]; [done|].
  simpl. intros [Hx Hl]%orb_false_iff.
  apply bool_decide_eq_false in Hx.
  destruct (f x) as [a|] eqn:E; [by destruct Hx |]. by apply IH.
Qed.

Lemma omap_flatList {A} (f : Node -> option A) data :
  (forall s k ch, f (Elem View s k ch) = None) ->
  (forall s k ch, f (Elem Text s k ch) = None) ->
  (forall s k ch, f (Elem FlatList s k ch) = None) ->
  omap f (elements (flatList data)) = [].
Proof.
  intros HV HT HF. apply omap_hidden. rewrite list_hides_rows.
  - unfold flatList. by rewrite HF.
  - intros. by rewrite HV.
  - intros. by rewrite HT.
Qed.

Lemma omap_leaf {A} (f : Node -> option A) n :
  match n with Elem _ _ _ _ => False | _ => True end ->
  omap f (elements n) = [].
Proof. by destruct n. Qed.

Lemma controls_render st tree :
  render st = Value tree ->
  input_values tree = [word st] /\ buttons_disabled tree = [loading st].
Proof.
  unfold render. rewrite results_value. intros [= <-].
  unfold input_values, buttons_disabled.
  destruct (loading st), (truthy (error st)), (definition st) as [d|].
  all: try remember (flatList _) as found eqn:Efound.
  all: split.
  all: repeat (rewrite omap_elements_Elem;
               cbn [flat_map app input_value button_disabled]).
  all: rewrite ?(omap_leaf _ Blank), ?omap_leaf by done.
  all: subst; rewrite ?omap_flatList by done; done.
Qed.



(** X2.  The validation lets a query through exactly when it has a
    character that is neither white space nor a line terminator: then one
    request is sent, with the query as typed; otherwise none is. *)
Theorem request_sent_iff_not_blank (w : World) (st : State) :
  (Exists (fun c => is_trimmed c = false) (word st) ->
   requests (submission w st) = [endpoint ++ word st])
  /\ (Forall (fun c => is_trimmed c = true) (word st) ->
      requests (submission w st) = [])
  /\ (requests (submission w st) <> [] <->
      Exists (fun c => is_trimmed c = false) (word st)).
Proof.
  assert (Hblank : Forall (fun c => is_trimmed c = true) (word st) ->
                   requests (submission w st) = []).
  { intros H%trim_nil. by rewrite (submission_rejected w st H). }
  assert (Hsome : Exists (fun c => is_trimmed c = false) (word st) ->
                  requests (submission w st) = [endpoint ++ word st]).
  { intros H. assert (Hw : trim (word st) <> []).
    { intros E%trim_nil. apply Exists_exists in H as (c & Hc & Hf).
      rewrite Forall_forall in E. specialize (E c Hc). congruence. }
    destruct (submission_accepted w st Hw) as (tail & -> & Hreq & _).
    by rewrite !requests_updated, requests_requested, Hreq. }
  split; [exact Hsome|]. split; [exact Hblank|]. split.
  - intros Hne.
    destruct (decide (Forall (fun c => is_trimmed c = true) (word st))) as [Hall|Hn].
    + by apply Hblank in Hall.
    + apply not_Forall_Exists in Hn; [|intros c; apply _].
      eapply Exists_impl; [exact Hn|]. intros c Hc. simpl in Hc.
      by apply not_true_is_false.
  - intros H. by rewrite (Hsome H).
Qed.

Lemma request_sent_iff_not_blank_witness :
  let w := {| fetch_reply := None; json_reply := None |} in
  let st := {| word := [0x20; 0x61; 0x0A]; definition := None; loading := false;
               error := [] |} in
  Exists (fun c => is_trimmed c = false) (word st)
  /\ requests (submission w st) = [endpoint ++ [0x20; 0x61; 0x0A]].
Proof.
  intros w st.
  assert (H : Exists (fun c => is_trimmed c = false) (word st)).
  { apply Exists_cons_tl, Exists_cons_hd. reflexivity. }
  split; [exact H|].
  exact (proj1 (request_sent_iff_not_blank w st) H).
Defined.

(** X3.  As soon as a query is let through, before any answer, the state
    is: no result, no error, [loading] on.  The screen then has the title,
    the field, the disabled button and the spinner, and neither the list
    nor the error line it had before. *)
Theorem search_start_clears_the_screen (s : System) :
  trim (word (ui s)) <> [] ->
  let s' := resume (fetchDefinition (word (ui s))) s in
  ui s' = {| word := word (ui s); definition := None; loading := true;
             error := [] |}
  /\ exists tree,
       render (ui s') = Value tree
       /\ shows is_spinner tree = true
       /\ shows is_error_line tree = false
       /\ shows is_list tree = false
       /\ buttons_disabled tree = [true]
       /\ input_values tree = [word (ui s)]
       /\ lines tree =
          [(styles.title, lit "Dictionary"); (styles.buttonText, lit "Search")].
Proof.
  intros H s'. subst s'. rewrite (resume_accepted s H). cbn [ui].
  split; [reflexivity|].
  destruct (render_total {| word := word (ui s); definition := None;
                            loading := true; error := [] |}) as [tree Htree].
  exists tree. split; [done|].
  destruct (render_parts _ _ Htree) as (-> & -> & ->).
  destruct (controls_render _ _ Htree) as (-> & ->).
  rewrite (lines_render _ _ Htree), (result_lines_render _ _ Htree).
  by repeat split.
Qed.

Lemma search_start_clears_the_screen_witness :
  let shown := Api.Entries [{| Api.word := lit "hello"; Api.meanings := [] |}] in
  let s := {| ui := {| word := lit "world"; definition := Some shown;
                       loading := false; error := lit "Please enter a word." |};
              inflight := []; network := [] |} in
  trim (word (ui s)) <> []
  /\ ui (resume (fetchDefinition (word (ui s))) s) =
       {| word := lit "world"; definition := None; loading := true; error := [] |}.
Proof.
  intros shown s.
  assert (Hw : trim (word (ui s)) <> []) by (vm_compute; discriminate).
  split; [exact Hw|].
  exact (proj1 (search_start_clears_the_screen s Hw)).
Defined.



(** ** Steps of the loop, one by one *)

Lemma settle_step i fetched parsed s s' :
  settle i fetched parsed s = Some s' -> step s s'.
Proof.
  unfold settle. destruct (inflight s !! i) as [[url k|r k]|] eqn:E; [| |done].
  - intros [= <-]. by eapply fetch_settles.
  - intros [= <-]. by eapply json_settles.
Qed.

Lemma step_cases s s' :
  step s s' ->
  (exists text, s' = {| ui := update (setWord text) (ui s);
                        inflight := inflight s; network := network s |})
  \/ s' = resume (fetchDefinition (word (ui s))) s
  \/ exists i fetched parsed, settle i fetched parsed s = Some s'.
Proof.
  intros [s0 text|s0|s0 _|s0 i url k reply Hi|s0 i r k reply Hi].
  - left. by exists text.
  - right. by left.
  - right. by left.
  - right. right. exists i, reply, None. unfold settle. by rewrite Hi.
  - right. right. exists i, None, reply. unfold settle. by rewrite Hi.
Qed.

(** What the settlement of a handler of [fetchDefinition] does. *)
Lemma settle_effect i fetched parsed s s' :
  Forall from_fetchDefinition (inflight s) ->
  settle i fetched parsed s = Some s' ->
  network s' = network s
  /\ word (ui s') = word (ui s)
  /\ (ui s' = ui s \/ loading (ui s') = false)
  /\ (length (inflight s') <= length (inflight s))%nat
  /\ Forall from_fetchDefinition (inflight s').
Proof.
  intros Hall. unfold settle.
  destruct (inflight s !! i) as [x|] eqn:E; [|done].
  assert (Hx : from_fetchDefinition x).
  { rewrite Forall_forall in Hall. apply Hall, list_elem_of_lookup. eauto. }
  assert (Hlen : (length (delete i (inflight s)) < length (inflight s))%nat).
  { rewrite length_delete by eauto. apply lookup_lt_Some in E. lia. }
  assert (Hdel : Forall from_fetchDefinition (delete i (inflight s)))
    by by apply Forall_delete.
  destruct x as [url k|r k]; cbn in Hx.
  - destruct Hx as [-> _]. intros [= <-].
    destruct fetched as [response|]; cbn.
    + repeat split; [by left | rewrite length_app; cbn; lia |].
      apply Forall_app. split; [done|]. by apply Forall_singleton.
    + repeat split; [by right | lia | done].
  - subst k. intros [= <-].
    destruct parsed as [data|]; cbn; [destruct (ok r); cbn|].
    all: repeat split; [by right | lia | done].
Qed.

Lemma wired_step s s' : wired s -> step s s' -> wired s'.
Proof.
  intros [Hin Hnet] Hstep.
  destruct (step_cases s s' Hstep)
    as [(text & ->) | [-> | (i & fetched & parsed & Hs)]].
  - by split.
  - destruct (decide (trim (word (ui s)) = [])) as [E|E].
    + rewrite (resume_rejected s E). by split.
    + rewrite (resume_accepted s E). split; cbn.
      * apply Forall_app. split; [done|]. apply Forall_singleton.
        split; [done|]. by eexists.
      * apply Forall_app. split; [done|]. apply Forall_singleton. by eexists.
  - destruct (settle_effect i fetched parsed s s' Hin Hs) as (Hn & _ & _ & _ & H).
    split; [done | by rewrite Hn].
Qed.

Lemma wired_reachable s : reachable s -> wired s.
Proof.
  intros Hs. unfold reachable in Hs.
  assert (H : forall a b, rtc step a b -> wired a -> wired b).
  { induction 1 as [|a b c Hab _ IH]; [done|].
    intros Ha. by apply IH, (wired_step a). }
  apply (H mounted s Hs). split; constructor.
Qed.

(** X5.  In the event loop, whatever the order of key strokes, submissions
    and settlements: when nothing is in flight, [loading] is off, the
    spinner is not on the screen and the Search button is enabled. *)
Theorem controls_recover (s : System) :
  reachable s ->
  inflight s = [] ->
  loading (ui s) = false
  /\ exists tree,
       render (ui s) = Value tree
       /\ shows is_spinner tree = false
       /\ buttons_disabled tree = [false].
Proof.
  intros Hs Hidle. pose proof (loading_never_sticks s Hs Hidle) as Hl.
  split; [exact Hl|].
  destruct (render_total (ui s)) as [tree Htree]. exists tree.
  split; [done|].
  destruct (render_parts _ _ Htree) as (-> & _).
  destruct (controls_render _ _ Htree) as (_ & ->).
  by rewrite Hl.
Qed.

Lemma controls_recover_witness :
  let data := Api.Entries [{| Api.word := lit "hello"; Api.meanings := [] |}] in
  let url := endpoint ++ lit "hello" in
  let sent :=
    {| ui := {| word := lit "hello"; definition := None; loading := true;
                error := [] |};
       inflight := [Fetching url fetched_then];
       network := [url] |} in
  let s :=
    {| ui := {| word := lit "hello"; definition := Some data; loading := false;
                error := [] |};
       inflight := [];
       network := [url] |} in
  reachable sent /\ loading (ui sent) = true /\ rtc step sent s
  /\ reachable s /\ inflight s = []
  /\ loading (ui s) = false
  /\ exists tree,
       render (ui s) = Value tree
       /\ shows is_spinner tree = false
       /\ buttons_disabled tree = [false].
Proof.
  intros data url sent s.
  assert (Hsent : reachable sent).
  { unfold reachable. eapply rtc_r.
    - exact (typed_reachable (lit "hello") mounted (rtc_refl _ _)).
    - apply onSubmitEditing. }
  assert (Hrun : rtc step sent s).
  { pose (r := {| status := 200 |}).
    pose (parsing := {| ui := ui sent;
                        inflight := [Parsing r (parsed_then r)];
                        network := [url] |}).
    assert (H1 : step sent parsing)
      by exact (fetch_settles sent 0 url fetched_then (Some r) eq_refl).
    assert (H2 : step parsing s)
      by exact (json_settles parsing 0 r (parsed_then r) (Some data) eq_refl).
    eapply rtc_l; [exact H1|]. eapply rtc_l; [exact H2|]. apply rtc_refl. }
  assert (Hs : reachable s).
  { unfold reachable. etrans; [exact Hsent | exact Hrun]. }
  split; [exact Hsent|]. split; [reflexivity|]. split; [exact Hrun|].
  split; [exact Hs|]. split; [reflexivity|].
  exact (controls_recover s Hs eq_refl).
Defined.

(** X6.  Every request the component has ever sent, in any run of the
    event loop, went to the endpoint followed by a query that passed the
    validation: nothing is sent for a blank query, and nothing to any
    other address. *)
Theorem requests_are_submitted_words (s : System) (url : JsString) :
  reachable s ->
  url ∈ network s ->
  exists word, url = endpoint ++ word /\ trim word <> [].
Proof.
  intros Hs Hurl. destruct (wired_reachable s Hs) as [_ Hnet].
  rewrite Forall_forall in Hnet. exact (Hnet url Hurl).
Qed.

Lemma requests_are_submitted_words_witness :
  let w := {| fetch_reply := None; json_reply := None |} in
  let s := {| ui := submitted w (update (setWord (lit "hello")) initial);
              inflight := [];
              network := [endpoint ++ lit "hello"] |} in
  reachable s
  /\ endpoint ++ lit "hello" ∈ network s
  /\ exists word, endpoint ++ lit "hello" = endpoint ++ word /\ trim word <> [].
Proof.
  intros w s.
  assert (Hs : reachable s).
  { exact (submitted_reachable w _
             (typed_reachable (lit "hello") mounted (rtc_refl _ _))). }
  assert (Hin : endpoint ++ lit "hello" ∈ network s) by apply list_elem_of_here.
  split; [exact Hs|]. split; [exact Hin|].
  exact (requests_are_submitted_words s _ Hs Hin).
Defined.

(** X7.  A step of the event loop is a key stroke, a submission, or a
    settlement; and a settlement only finishes what a submission began:
    it sends nothing (no retry), leaves the query alone, never turns
    [loading] on and never adds to what is in flight. *)
Theorem settlements_only_finish (s s' : System) :
  reachable s ->
  step s s' ->
  (exists text, s' = {| ui := update (setWord text) (ui s);
                        inflight := inflight s; network := network s |})
  \/ s' = resume (fetchDefinition (word (ui s))) s
  \/ (network s' = network s
      /\ word (ui s') = word (ui s)
      /\ (ui s' = ui s \/ loading (ui s') = false)
      /\ (length (inflight s') <= length (inflight s))%nat).
Proof.
  intros Hs Hstep.
  destruct (step_cases s s' Hstep)
    as [Htyped | [Hsub | (i & fetched & parsed & Hset)]]; [by left | by right; left |].
  right. right. destruct (wired_reachable s Hs) as [Hin _].
  destruct (settle_effect i fetched parsed s s' Hin Hset) as (? & ? & ? & ? & _).
  done.
Qed.

Lemma settlements_only_finish_witness :
  let s := {| ui := {| word := lit "hello"; definition := None; loading := true;
                       error := [] |};
              inflight := [Fetching (endpoint ++ lit "hello") fetched_then];
              network := [endpoint ++ lit "hello"] |} in
  let s' := {| ui := {| word := lit "hello"; definition := None;
                        loading := false;
                        error := lit "An error occurred. Please check your network connection." |};
               inflight := [];
               network := [endpoint ++ lit "hello"] |} in
  reachable s /\ step s s' /\ network s' = network s.
Proof.
  intros s s'.
  assert (Hs : reachable s).
  { unfold reachable. eapply rtc_r.
    - exact (typed_reachable (lit "hello") mounted (rtc_refl _ _)).
    - apply onSubmitEditing. }
  assert (Hstep : step s s').
  { exact (fetch_settles s 0 _ fetched_then None eq_refl). }
  split; [exact Hs|]. split; [exact Hstep|].
  destruct (settlements_only_finish s s' Hs Hstep)
    as [(text & E) | [E | (E & _)]]; [discriminate E | discriminate E | exact E].
Defined.

(** ** With the button only *)

Lemma step_by_button_step s s' : step_by_button s s' -> step s s'.
Proof.
  intros [s0 text|s0 H|s0 i url k reply Hi|s0 i r k reply Hi].
  - apply onChangeText.
  - by apply onPress.
  - by eapply fetch_settles.
  - by eapply json_settles.
Qed.

Lemma reachable_by_button_reachable s : reachable_by_button s -> reachable s.
Proof.
  unfold reachable_by_button, reachable. revert s.
  apply rtc_ind_r; [apply rtc_refl|].
  intros a b _ Hstep IH. eapply rtc_r; [exact IH|]. by apply step_by_button_step.
Qed.

Lemma one_at_a_time_step s s' :
  reachable s ->
  (inflight s = [] /\ loading (ui s) = false
   \/ exists x, inflight s = [x] /\ loading (ui s) = true) ->
  step_by_button s s' ->
  inflight s' = [] /\ loading (ui s') = false
  \/ exists x, inflight s' = [x] /\ loading (ui s') = true.
Proof.
  intros Hs Hone Hstep. destruct (wired_reachable s Hs) as [Hwired _].
  destruct Hstep as [s text|s Hl|s i url k reply Hi|s i r k reply Hi].
  - exact Hone.
  - destruct Hone as [[Hin _] | (x & _ & Hx)]; [|congruence].
    destruct (decide (trim (word (ui s)) = [])) as [E|E].
    + rewrite (resume_rejected s E). by left.
    + rewrite (resume_accepted s E). right. cbn. rewrite Hin. by eexists.
  - destruct Hone as [[Hin _] | (x & Hin & Hl)]; [by rewrite Hin in Hi|].
    rewrite Hin in Hi, Hwired. destruct i as [|i]; [|done].
    injection Hi as ->. rewrite Forall_singleton in Hwired.
    destruct Hwired as [-> _].
    unfold forget. rewrite Hin.
    destruct reply as [response|]; cbn.
    + right. by eexists.
    + by left.
  - destruct Hone as [[Hin _] | (x & Hin & Hl)]; [by rewrite Hin in Hi|].
    rewrite Hin in Hi, Hwired. destruct i as [|i]; [|done].
    injection Hi as ->. rewrite Forall_singleton in Hwired.
    unfold from_fetchDefinition in Hwired. rewrite Hwired.
    unfold forget. rewrite Hin.
    destruct reply as [data|]; cbn; [destruct (ok r); cbn|]; by left.
Qed.

(** X8.  The button is its own guard: as long as the user submits with
    the Search button only, at most one request is in flight at any time,
    and [loading] is on exactly while one is. *)
Theorem button_alone_never_races (s : System) :
  reachable_by_button s ->
  (length (inflight s) <= 1)%nat
  /\ (loading (ui s) = true <-> inflight s <> []).
Proof.
  intros Hs.
  assert (H : inflight s = [] /\ loading (ui s) = false
              \/ exists x, inflight s = [x] /\ loading (ui s) = true).
  { revert s Hs. unfold reachable_by_button.
    apply rtc_ind_r; [by left|].
    intros a b Hab Hstep IH.
    eapply one_at_a_time_step; [|exact IH|exact Hstep].
    by apply reachable_by_button_reachable. }
  destruct H as [[-> Hl] | (x & -> & Hl)]; rewrite Hl.
  - split; [cbn; lia|]. by split.
  - split; [cbn; lia|]. by split.
Qed.

Lemma button_alone_never_races_witness :
  let s := {| ui := {| word := lit "hello"; definition := None; loading := true;
                       error := [] |};
              inflight := [Fetching (endpoint ++ lit "hello") fetched_then];
              network := [endpoint ++ lit "hello"] |} in
  reachable_by_button s /\ (length (inflight s) <= 1)%nat.
Proof.
  intros s.
  assert (Hs : reachable_by_button s).
  { unfold reachable_by_button. eapply rtc_l.
    - apply (button_onChangeText mounted (lit "hello")).
    - eapply rtc_l; [|apply rtc_refl]. by apply button_onPress. }
  split; [exact Hs|]. exact (proj1 (button_alone_never_races s Hs)).
Defined.

(** ** Two requests in flight *)

(** X9.  With the return key a second query can be submitted while the
    first is in flight, and then the answer that arrives last stays on the
    screen, whichever request it answers: if the second request is
    answered first, [loading] goes off with the first request still in
    flight, and in the end the field holds the second query and the list
    shows the answer to the first. *)
Theorem last_answer_wins
    (a b : JsString) (rA rB : Response) (dataA dataB : Api.Data) :
  trim a <> [] ->
  trim b <> [] ->
  ok rA = true ->
  ok rB = true ->
  let both :=
    {| ui := {| word := b; definition := None; loading := true; error := [] |};
       inflight := [Fetching (endpoint ++ a) fetched_then;
                    Fetching (endpoint ++ b) fetched_then];
       network := [endpoint ++ a; endpoint ++ b] |} in
  let shows_answer data :=
    {| ui := {| word := b; definition := Some data; loading := false;
                error := [] |};
       inflight := [];
       network := [endpoint ++ a; endpoint ++ b] |} in
  reachable both
  /\ answered 1 rB dataB both =
     Some {| ui := {| word := b; definition := Some dataB; loading := false;
                      error := [] |};
             inflight := [Fetching (endpoint ++ a) fetched_then];
             network := [endpoint ++ a; endpoint ++ b] |}
  /\ (answered 1 rB dataB both ≫= answered 0 rA dataA) = Some (shows_answer dataA)
  /\ (answered 0 rA dataA both ≫= answered 0 rB dataB) = Some (shows_answer dataB)
  /\ reachable (shows_answer dataA).
Proof.
  intros Ha Hb HokA HokB both shows_answer.
  assert (Hboth : reachable both).
  { unfold reachable.
    eapply rtc_l; [apply (onChangeText mounted a)|].
    eapply rtc_l; [apply onSubmitEditing|].
    rewrite resume_accepted by exact Ha. cbn.
    eapply rtc_l; [apply (onChangeText _ b)|].
    eapply rtc_l; [apply onSubmitEditing|].
    rewrite resume_accepted by exact Hb. cbn. apply rtc_refl. }
  assert (E1 : (answered 1 rB dataB both ≫= answered 0 rA dataA)
               = Some (shows_answer dataA)).
  { unfold answered, settle. cbn. rewrite HokB. cbn. by rewrite HokA. }
  assert (E2 : (answered 0 rA dataA both ≫= answered 0 rB dataB)
               = Some (shows_answer dataB)).
  { unfold answered, settle. cbn. rewrite HokA. cbn. by rewrite HokB. }
  split; [exact Hboth|].
  split; [unfold answered, settle; cbn; by rewrite HokB|].
  split; [exact E1|]. split; [exact E2|].
  unfold reachable. etrans; [exact Hboth|].
  revert E1. unfold answered.
  destruct (settle 1 (Some rB) None both) as [s1|] eqn:S1; [|done]. cbn.
  destruct (settle (length (inflight s1) - 1) None (Some dataB) s1) as [s2|] eqn:S2;
    [|done]. cbn.
  destruct (settle 0 (Some rA) None s2) as [s3|] eqn:S3; [|done]. cbn.
  intros S4.
  eapply rtc_l; [exact (settle_step _ _ _ _ _ S1)|].
  eapply rtc_l; [exact (settle_step _ _ _ _ _ S2)|].
  eapply rtc_l; [exact (settle_step _ _ _ _ _ S3)|].
  eapply rtc_l; [exact (settle_step _ _ _ _ _ S4)|]. apply rtc_refl.
Qed.

Lemma last_answer_wins_witness :
  let dataA := Api.Entries [{| Api.word := lit "cat"; Api.meanings := [] |}] in
  let dataB := Api.Entries [{| Api.word := lit "dog"; Api.meanings := [] |}] in
  let both :=
    {| ui := {| word := lit "dog"; definition := None; loading := true;
                error := [] |};
       inflight := [Fetching (endpoint ++ lit "cat") fetched_then;
                    Fetching (endpoint ++ lit "dog") fetched_then];
       network := [endpoint ++ lit "cat"; endpoint ++ lit "dog"] |} in
  trim (lit "cat") <> [] /\ trim (lit "dog") <> []
  /\ ok {| status := 200 |} = true
  /\ (answered 1 {| status := 200 |} dataB both
        ≫= answered 0 {| status := 200 |} dataA)
     = Some {| ui := {| word := lit "dog"; definition := Some dataA;
                        loading := false; error := [] |};
               inflight := [];
               network := [endpoint ++ lit "cat"; endpoint ++ lit "dog"] |}.
Proof.
  intros dataA dataB both.
  assert (Ha : trim (lit "cat") <> []) by (vm_compute; discriminate).
  assert (Hb : trim (lit "dog") <> []) by (vm_compute; discriminate).
  split; [exact Ha|]. split; [exact Hb|]. split; [reflexivity|].
  exact (proj1 (proj2 (proj2 (last_answer_wins (lit "cat") (lit "dog")
                         {| status := 200 |} {| status := 200 |} dataA dataB
                         Ha Hb eq_refl eq_refl)))).
Defined.

(** ** Numbers in keys *)

Lemma lit_inj s1 s2 : lit s1 = lit s2 -> s1 = s2.
Proof.
  unfold lit. intros H.
  rewrite <- (string_of_list_ascii_of_string s1),
          <- (string_of_list_ascii_of_string s2).
  f_equal. revert H.
  generalize (list_ascii_of_string s1) (list_ascii_of_string s2).
  induction l as [|a l IH]; intros [|b l']; try discriminate; [done|].
  cbn. intros [= Hab Hl]. f_equal; [|by apply IH].
  by rewrite <- (ascii_N_embedding a), <- (ascii_N_embedding b), Hab.
Qed.

Lemma decimal_inj i j : decimal i = decimal j -> i = j.
Proof.
  unfold decimal. intros H%lit_inj.
  apply Unsigned.to_uint_inj.
  assert (E : Some (Nat.to_uint i) = Some (Nat.to_uint j)).
  { by rewrite <- !NilEmpty.usu, H. }
  by injection E.
Qed.

Lemma decimal_digits n : Forall (fun c => 48 <= c <= 57) (decimal n).
Proof.
  unfold decimal, lit. generalize (Nat.to_uint n). intros d.
  induction d as [|d IH|d IH|d IH|d IH|d IH|d IH|d IH|d IH|d IH|d IH];
    [constructor|..].
  all: cbn [NilEmpty.string_of_uint list_ascii_of_string].
  all: rewrite fmap_cons; constructor; [|exact IH].
  all: vm_compute; split; discriminate.
Qed.

Lemma decimal_no_dash n : 45 ∉ decimal n.
Proof.
  intros H. pose proof (decimal_digits n) as Hd.
  rewrite Forall_forall in Hd. specialize (Hd _ H). lia.
Qed.

(** What follows the last dash of a string. *)
Lemma after_last_dash (a b d1 d2 : JsString) :
  45 ∉ d1 -> 45 ∉ d2 ->
  a ++ 45 :: d1 = b ++ 45 :: d2 -> d1 = d2.
Proof.
  intros H1 H2. revert b.
  induction a as [|x a IH]; intros [|y b]; cbn; intros E.
  - by injection E.
  - injection E as <- ->. exfalso. apply H1.
    rewrite elem_of_app, elem_of_cons. auto.
  - injection E as -> <-. exfalso. apply H2.
    rewrite elem_of_app, elem_of_cons. auto.
  - injection E as _ E. by apply (IH b).
Qed.

Lemma keyExtractor_index item item' i j :
  keyExtractor item i = keyExtractor item' j -> i = j.
Proof.
  unfold keyExtractor. change (lit "-") with [45]. cbn [app].
  intros H. apply decimal_inj.
  by apply (after_last_dash _ _ _ _ (decimal_no_dash i) (decimal_no_dash j) H).
Qed.

Lemma NoDup_imap_index {A B} (f : nat -> A -> B) (l : list A) :
  (forall i j x y, f i x = f j y -> i = j) -> NoDup (imap f l).
Proof.
  intros Hf. apply NoDup_alt. intros i j z.
  rewrite !list_lookup_imap.
  destruct (l !! i) as [x|]; [|done]. destruct (l !! j) as [y|]; [|done].
  cbn. intros [= <-] [= E]. by apply (Hf i j x y).
Qed.

Lemma row_keys key item :
  key_of (keyed key (renderDefinition item)) = Some key
  /\ NoDup (key_of <$> children_of (keyed key (renderDefinition item))).
Proof.
  split; [reflexivity|]. unfold renderDefinition, keyed. cbn [children_of].
  rewrite fmap_cons, fmap_imap. cbn [key_of compose].
  apply NoDup_cons. split.
  - intros (i & def & E & _)%elem_of_lookup_imap. discriminate E.
  - apply NoDup_imap_index. intros i j _ _ [= E]. by apply decimal_inj.
Qed.

(** X10.  The keys React is given are unique among siblings: the rows of
    the list have pairwise different keys, also when two meanings have the
    same part of speech or a part of speech that ends like a key, and so
    have the definition blocks inside each row. *)
Theorem keys_are_unique (st : State) :
  exists tree,
    render st = Value tree
    /\ Forall (fun l =>
         NoDup (key_of <$> children_of l)
         /\ Forall (fun row =>
              is_Some (key_of row)
              /\ NoDup (key_of <$> children_of row))
            (children_of l))
       (lists tree).
Proof.
  destruct (render_total st) as [tree Htree]. exists tree. split; [done|].
  rewrite (lists_render _ _ Htree).
  destruct (definition st) as [data|]; [|constructor].
  apply Forall_singleton. unfold flatList. cbn [children_of]. split.
  - rewrite fmap_imap. apply NoDup_imap_index.
    intros i j item item'. cbn. intros [= E]. by apply keyExtractor_index in E.
  - apply Forall_forall. intros row (i & item & -> & _)%elem_of_lookup_imap.
    destruct (row_keys (keyExtractor item i) item) as [-> Hnd]. by split.
Qed.

(** X11.  A key stroke changes the field and nothing else: on the screen
    the input shows the new text while the lines of text, the result list,
    the error line, the spinner and the button are as before.  In
    particular typing does not clear an error or a result. *)
Theorem typing_changes_only_the_field (st : State) (text : JsString) :
  exists tree tree',
    render st = Value tree
    /\ render (update (setWord text) st) = Value tree'
    /\ input_values tree' = [text]
    /\ lines tree' = lines tree
    /\ lists tree' = lists tree
    /\ buttons_disabled tree' = buttons_disabled tree
    /\ shows is_spinner tree' = shows is_spinner tree
    /\ shows is_error_line tree' = shows is_error_line tree.
Proof.
  destruct (render_total st) as [tree Htree].
  destruct (render_total (update (setWord text) st)) as [tree' Htree'].
  exists tree, tree'. split; [done|]. split; [done|].
  destruct (controls_render _ _ Htree) as [_ ->].
  destruct (controls_render _ _ Htree') as [-> ->].
  destruct (render_parts _ _ Htree) as (-> & -> & _).
  destruct (render_parts _ _ Htree') as (-> & -> & _).
  rewrite (lines_render _ _ Htree), (lines_render _ _ Htree'),
    (result_lines_render _ _ Htree), (result_lines_render _ _ Htree'),
    (lists_render _ _ Htree), (lists_render _ _ Htree').
  done.
Qed.

(** X12.  A submission that passes validation forgets the past: the state
    it ends in depends on the query and on the answer only, not on the
    result, error or loading flag it started from.  Submitting again with
    the same answer changes nothing, for any query. *)
Theorem submission_forgets_the_past (w : World) (st st' : State) :
  (trim (word st) <> [] -> word st' = word st ->
   submitted w st' = submitted w st)
  /\ submitted w (submitted w st) = submitted w st.
Proof.
  assert (Hpast : forall a b, trim (word a) <> [] -> word b = word a ->
                              submitted w b = submitted w a).
  { intros a b Ha Hb.
    assert (Hb' : trim (word b) <> []) by by rewrite Hb.
    by rewrite (submitted_accepted w a Ha), (submitted_accepted w b Hb'), Hb. }
  split; [apply Hpast|].
  destruct (decide (trim (word st) = [])) as [E|E].
  - assert (E1 : submitted w st
                 = update (setError (lit "Please enter a word.")) st).
    { unfold submitted. by rewrite (submission_rejected w st E). }
    rewrite E1. unfold submitted.
    by rewrite (submission_rejected w
                  (update (setError (lit "Please enter a word.")) st) E).
  - apply Hpast; [exact E|].
    rewrite (submitted_accepted w st E).
    destruct (fetch_reply w), (json_reply w); try destruct (ok _); reflexivity.
Qed.

Lemma submission_forgets_the_past_witness :
  let shown := Api.Entries [{| Api.word := lit "hello"; Api.meanings := [] |}] in
  let w := {| fetch_reply := Some {| status := 404 |}; json_reply := None |} in
  let st := {| word := lit "world"; definition := None; loading := false;
               error := [] |} in
  let st' := {| word := lit "world"; definition := Some shown; loading := true;
                error := lit "Please enter a word." |} in
  trim (word st) <> [] /\ word st' = word st
  /\ submitted w st' = submitted w st.
Proof.
  intros shown w st st'.
  assert (Hw : trim (word st) <> []) by (vm_compute; discriminate).
  split; [exact Hw|]. split; [reflexivity|].
  exact (proj1 (submission_forgets_the_past w st st') Hw eq_refl).
Defined.
